(** * react-mobile-picker: the scroll-and-snap engine

  A shallow embedding of the picker's value store ([Picker.tsx]) and of
  the column scroll controller ([PickerColumn.tsx]), with the properties
  of the specification stated against them, followed by the option
  registry and the props of the root ([Picker.tsx]) and by the items
  ([PickerItem.tsx]), with properties read off the source.

  Numbers.  A JavaScript [number] is an IEEE double.  The embedding
  idealises it as a real number, and not as a rational, because the
  scroller raises offsets to the power 0.8: the arithmetic of the source
  is exact here, [Math.round] is the integer nearest to its argument
  with ties towards plus infinity, and [Math.pow] is the real power
  function (the source only raises strictly positive bases).  Non-finite
  values (division by an [itemHeight] of zero) are outside the
  embedding; the statements that go through the division ask for an
  [itemHeight] that is not zero.

  Objects.  The picker value is a JavaScript object owned by the
  application.  Objects live in a heap indexed by references, so that
  building a new object and writing into an old one are different
  things.

  Handlers.  Every event handler runs to completion on the state of the
  last render and leaves a new state, the heap, the calls it made out of
  the column and whether it threw. *)

From Stdlib Require Import ZArith Reals Lra Lia List.
From stdpp Require Import gmap strings sorting.

Open Scope R_scope.

(** ** The JavaScript primitives the source relies on *)

Module JS.

(** [Math.round(x)]: the nearest integer, a tie going up. *)
Definition Math_round (x : R) : Z := Int_part (x + / 2).

(** [Math.pow(x, y)] for a strictly positive [x]. *)
Definition Math_pow (x y : R) : R := Rpower x y.

Definition Math_abs (x : R) : R := Rabs x.

(** [Object.is] on two numbers, as React compares dependencies. *)
#[global] Instance R_eq_dec : EqDecision R := Req_dec_T.

Definition Math_sign (x : R) : R :=
  if Rlt_dec 0 x then 1 else if Rlt_dec x 0 then -1 else 0.

(** [xs[i]] on an array: [undefined] (here [None]) out of range, the
    negative indices included. *)
Definition array_get {A : Type} (xs : list A) (i : Z) : option A :=
  if (i <? 0)%Z then None else xs !! Z.to_nat i.

(** [xs.findIndex(p)]: the first index whose element satisfies [p],
    and [-1] when there is none. *)
Fixpoint findIndex_from {A : Type} (p : A → bool) (xs : list A) (i : Z) : Z :=
  match xs with
  | [] => (-1)%Z
  | x :: rest => if p x then i else findIndex_from p rest (i + 1)%Z
  end.

Definition findIndex {A : Type} (p : A → bool) (xs : list A) : Z :=
  findIndex_from p xs 0%Z.

End JS.

(** ** Picker.tsx: the value store *)

Module Picker.

Definition DEFAULT_HEIGHT : R := 216.
Definition DEFAULT_ITEM_HEIGHT : R := 36.

Inductive WheelMode : Set := off | natural | normal.

Definition DEFAULT_WHEEL_MODE : WheelMode := off.

(** [interface Option]: the value of an item and the handle of its
    rendered node. *)
Record Option : Set := mkOption { value : string; element : positive }.

(** [interface PickerValue]: column key to selected value. *)
Abbreviation PickerValue := (gmap string string).

(** References to picker-value objects, and the heap that holds them. *)
Definition ref : Set := positive.
Abbreviation heap := (gmap positive (gmap string string)).

(** [obj[key]] through a reference; [None] is [undefined]. *)
Definition read (σ : heap) (obj : ref) (key : string) : option string :=
  σ !! obj ≫= λ fields, fields !! key.

(** [{ ...obj, [key]: v }]: a new object, allocated at a reference the
    heap does not use yet. *)
Definition spread_with (σ : heap) (obj : ref) (key v : string) : ref * heap :=
  let fresh_ref := fresh (dom σ) in
  (fresh_ref, <[fresh_ref := <[key := v]> (default ∅ (σ !! obj))]> σ).

(** What a call of [change] leaves behind: its return value, the heap,
    and the calls of the owner's [onChange] in order. *)
Record ChangeOutcome : Type := mkChangeOutcome {
  committed : bool;
  heap_after : heap;
  onChange_calls : list (ref * string)
}.

(** [triggerChange], closed over the props [value] and [onChange]. *)
Definition triggerChange (σ : heap) (value : ref) (key nextValue : string)
  : ChangeOutcome :=
  if decide (read σ value key = Some nextValue) then
    mkChangeOutcome false σ []
  else
    let '(nextPickerValue, σ') := spread_with σ value key nextValue in
    mkChangeOutcome true σ' [(nextPickerValue, key)].

(** The part of [PickerDataContext] the column reads. *)
Record PickerData : Type := mkPickerData {
  height : R;
  itemHeight : R;
  selectedItemHeight : R;
  topOffset : R;
  wheelMode : WheelMode;
  groupValue : ref;  (* the context's [value], under the name the column gives it *)
  optionGroups : gmap string (list Option)
}.

End Picker.

(** ** PickerColumn.tsx: the column scroll controller *)

Module PickerColumn.

Import JS Picker.

#[global] Instance WheelMode_eq_dec : EqDecision WheelMode.
Proof. solve_decision. Defined.

(** The column's [useState] cells and its timer ref.  [wheelingTimer] is
    [true] once a debounce timer has been set ([wheelingTimer.current] is
    then a timer id, which the source never resets to [null]). *)
Record ColumnState : Set := mkColumnState {
  scrollerTranslate : R;
  startScrollerTranslate : R;
  isMoving : bool;
  startTouchY : R;
  wheelingTimer : bool
}.

Definition setScrollerTranslate (x : R) (s : ColumnState) : ColumnState :=
  mkColumnState x (startScrollerTranslate s) (isMoving s) (startTouchY s)
    (wheelingTimer s).

Definition setStartScrollerTranslate (x : R) (s : ColumnState) : ColumnState :=
  mkColumnState (scrollerTranslate s) x (isMoving s) (startTouchY s)
    (wheelingTimer s).

Definition setIsMoving (b : bool) (s : ColumnState) : ColumnState :=
  mkColumnState (scrollerTranslate s) (startScrollerTranslate s) b
    (startTouchY s) (wheelingTimer s).

Definition setStartTouchY (y : R) (s : ColumnState) : ColumnState :=
  mkColumnState (scrollerTranslate s) (startScrollerTranslate s) (isMoving s)
    y (wheelingTimer s).

Definition setWheelingTimer (b : bool) (s : ColumnState) : ColumnState :=
  mkColumnState (scrollerTranslate s) (startScrollerTranslate s) (isMoving s)
    (startTouchY s) b.

(** The calls a handler makes out of the column.  [OnChange] is the
    owner's callback, reached through [pickerActions.change]. *)
Inductive Call : Set :=
| OnChange (nextPickerValue : ref) (key : string)
| FocusChange (key : string) (value : string).

(** Modelled from the spec: [pickerActions.focusChange], which the
    given [Picker.tsx] does not define.  It publishes the value focused
    during a gesture and never touches the committed value: the call is
    recorded and the heap stays as it is. *)
Definition focusChange (key value : string) : list Call :=
  [FocusChange key value].

(** A call that publishes a focused value, as opposed to a commit. *)
Definition is_focus (c : Call) : Prop :=
  match c with
  | FocusChange _ _ => True
  | OnChange _ _ => False
  end.

(** What a handler leaves behind.  [threw] records an uncaught
    [TypeError]; the state updates queued before it are kept, as React
    keeps them. *)
Record Outcome : Type := mkOutcome {
  state : ColumnState;
  store : heap;
  calls : list Call;
  threw : bool
}.

Inductive Event : Set :=
| TouchStart (pageY : R)
| TouchMove (pageY : R)
| TouchEnd
| TouchCancel
| Wheel (deltaY : R)
| WheelTimeout.

Section Column.

Variable data : PickerData.
Variable key : string.

(** [optionGroups[key] || []] *)
Definition options : list Option := default [] (optionGroups data !! key).

(** [groupValue[key]] *)
Definition value (σ : heap) : option string := read σ (groupValue data) key.

Definition selectedIndex (σ : heap) : Z :=
  let index :=
    findIndex (λ o, bool_decide (Some (Picker.value o) = value σ)) options in
  if (index <? 0)%Z then 0%Z else index.

Definition minTranslate : R :=
  height data / 2 - itemHeight data * INR (length options)
  + itemHeight data / 2 - topOffset data.

Definition maxTranslate : R :=
  height data / 2 - selectedItemHeight data / 2 - topOffset data.

(** The translate at which the option of a given index sits under the
    highlight.  The source writes this expression out twice, in the
    effect that follows [selectedIndex] and in
    [handleScrollerTranslateSettled]. *)
Definition settleTranslate (index : Z) : R :=
  height data / 2 - selectedItemHeight data / 2
  - IZR index * itemHeight data - topOffset data.

(** The dependency array of the effect that follows [selectedIndex]:
    [[height, itemHeight, selectedIndex, selectedItemHeight, topOffset]]. *)
Definition effect_deps (σ : heap) : R * R * Z * R * R :=
  (height data, itemHeight data, selectedIndex σ, selectedItemHeight data,
   topOffset data).

(** The effect [setScrollerTranslate(...)].  It runs after the first
    render ([previous] is [None]) and after a render whose dependencies
    are not those of the render before; otherwise the translate is left
    as it is. *)
Definition syncScrollerTranslate (previous : option (R * R * Z * R * R))
  (σ : heap) (s : ColumnState) : ColumnState :=
  if decide (previous = Some (effect_deps σ)) then s
  else
    setScrollerTranslate (settleTranslate (selectedIndex σ)) s.

(** The index computation that opens both
    [handleScrollerTranslateSettled] and
    [handleScrollerTranslateUpdating]. *)
Definition nextActiveIndex (currentTrans : R) : Z :=
  if Rge_dec currentTrans maxTranslate then 0%Z
  else if Rle_dec currentTrans minTranslate then
    (Z.of_nat (length options) - 1)%Z
  else (- Math_round ((currentTrans - maxTranslate) / itemHeight data))%Z.

(** [options[nextActiveIndex].value] throws when the array has nothing
    at that index. *)
Definition handleScrollerTranslateSettled (s : ColumnState) (σ : heap)
  : Outcome :=
  let index := nextActiveIndex (scrollerTranslate s) in
  match array_get options index with
  | None => mkOutcome s σ [] true
  | Some o =>
    let changed := triggerChange σ (groupValue data) key (Picker.value o) in
    mkOutcome
      (if committed changed then s
       else setScrollerTranslate (settleTranslate index) s)
      (heap_after changed)
      (map (λ c, OnChange c.1 c.2) (onChange_calls changed))
      false
  end.

(** [options[nextActiveIndex].value] throws here as it does above. *)
Definition handleScrollerTranslateUpdating (s : ColumnState) (σ : heap)
  : Outcome :=
  match array_get options (nextActiveIndex (scrollerTranslate s)) with
  | None => mkOutcome s σ [] true
  | Some o => mkOutcome s σ (focusChange key (Picker.value o)) false
  end.

Definition updateScrollerWhileMoving (nextScrollerTranslate : R)
  (s : ColumnState) : ColumnState :=
  let nextScrollerTranslate :=
    if Rlt_dec nextScrollerTranslate minTranslate then
      minTranslate - Math_pow (minTranslate - nextScrollerTranslate) 0.8
    else if Rgt_dec nextScrollerTranslate maxTranslate then
      maxTranslate + Math_pow (nextScrollerTranslate - maxTranslate) 0.8
    else nextScrollerTranslate in
  setScrollerTranslate nextScrollerTranslate s.

Definition handleTouchStart (pageY : R) (s : ColumnState) : ColumnState :=
  setStartScrollerTranslate (scrollerTranslate s) (setStartTouchY pageY s).

(** [translateRef.current] is the translate of the last render, so the
    focused index is resolved from the translate before this move. *)
Definition handleTouchMove (pageY : R) (s : ColumnState) (σ : heap)
  : Outcome :=
  let moving := if isMoving s then s else setIsMoving true s in
  let nextScrollerTranslate :=
    startScrollerTranslate s + pageY - startTouchY s in
  let moved := updateScrollerWhileMoving nextScrollerTranslate moving in
  let focus := handleScrollerTranslateUpdating s σ in
  mkOutcome moved σ (calls focus) (threw focus).

Definition handleTouchEnd (s : ColumnState) (σ : heap) : Outcome :=
  if isMoving s then
    let idle :=
      setStartScrollerTranslate 0 (setStartTouchY 0 (setIsMoving false s)) in
    handleScrollerTranslateSettled idle σ
  else mkOutcome s σ [] false.

Definition handleTouchCancel (s : ColumnState) : ColumnState :=
  if isMoving s then
    setStartScrollerTranslate 0
      (setScrollerTranslate (startScrollerTranslate s)
         (setStartTouchY 0 (setIsMoving false s)))
  else s.

Definition handleWheeling (deltaY : R) (s : ColumnState) : ColumnState :=
  if Req_dec_T deltaY 0 then s
  else
    let delta := deltaY * 0.1 in
    let delta :=
      if Rlt_dec (Math_abs delta) (itemHeight data)
      then itemHeight data * Math_sign delta else delta in
    let delta := if decide (wheelMode data = normal) then - delta else delta in
    updateScrollerWhileMoving (scrollerTranslate s + delta) s.

Definition handleWheelEnd (s : ColumnState) (σ : heap) : Outcome :=
  handleScrollerTranslateSettled s σ.

(** The debounce itself is a matter of time; what is kept of it is that
    a timer is pending after a wheel event. *)
Definition handleWheel (deltaY : R) (s : ColumnState) : ColumnState :=
  if decide (wheelMode data = off) then s
  else setWheelingTimer true (handleWheeling deltaY s).

(** One event of the container, handled to completion. *)
Definition dispatch (e : Event) (s : ColumnState) (σ : heap) : Outcome :=
  match e with
  | TouchStart pageY => mkOutcome (handleTouchStart pageY s) σ [] false
  | TouchMove pageY => handleTouchMove pageY s σ
  | TouchEnd => handleTouchEnd s σ
  | TouchCancel => mkOutcome (handleTouchCancel s) σ [] false
  | Wheel deltaY => mkOutcome (handleWheel deltaY s) σ [] false
  | WheelTimeout =>
    if wheelingTimer s then handleWheelEnd s σ else mkOutcome s σ [] false
  end.

(** Events in arrival order.  An exception ends its own handler only:
    the next event is dispatched all the same. *)
Fixpoint run (es : list Event) (s : ColumnState) (σ : heap) : Outcome :=
  match es with
  | [] => mkOutcome s σ [] false
  | e :: rest =>
    let first := dispatch e s σ in
    let later := run rest (state first) (store first) in
    mkOutcome (state later) (store later) (calls first ++ calls later)
      (threw first || threw later)
  end.

End Column.

End PickerColumn.

(** ** Columns to evaluate the controller on *)

Module Fixtures.

Import JS Picker PickerColumn.

(** Options in visual order, each with the handle of its own node. *)
Fixpoint options_of (values : list string) (node : positive) : list Option :=
  match values with
  | [] => []
  | v :: rest => mkOption v node :: options_of rest (Pos.succ node)
  end.

(** A picker with the single column ["c"], wheel mode off, whose value
    object is the reference [1]. *)
Definition picker (height itemHeight selectedItemHeight topOffset : R)
  (values : list string) : PickerData :=
  mkPickerData height itemHeight selectedItemHeight topOffset
    DEFAULT_WHEEL_MODE 1%positive {[ "c" := options_of values 1%positive ]}.

(** Item height 36 under a highlight of height 108. *)
Definition tall_highlight (values : list string) : PickerData :=
  picker DEFAULT_HEIGHT DEFAULT_ITEM_HEIGHT 108 0 values.

(** The defaults of [PickerRoot]. *)
Definition default_picker (values : list string) : PickerData :=
  picker DEFAULT_HEIGHT DEFAULT_ITEM_HEIGHT DEFAULT_ITEM_HEIGHT 0 values.

(** The owner's value object [{ c: v }] at the reference [1]. *)
Definition heap_with (v : string) : heap :=
  {[ 1%positive := {[ "c" := v ]} ]}.

Definition at_rest (translate : R) : ColumnState :=
  mkColumnState translate 0 false 0 false.

Definition dragging (translate start : R) : ColumnState :=
  mkColumnState translate start true 0 false.

End Fixtures.

(** ** What the specification says, in its own words *)

Module Spec.

(** "standard round-half-away-from-zero" *)
Definition round_half_away_from_zero (x : R) : Z :=
  if Rle_dec 0 x then Int_part (x + / 2) else (- Int_part (- x + / 2))%Z.

End Spec.

(** ** Picker.tsx: the option registry *)

Module Registry.

Import JS Picker.

(** [xs.slice().sort(compare)].  The sort of an array is stable: of two
    elements the earlier one stays first unless [compare] puts the later
    one before it.  For a comparator that is not consistent (here, one
    that meets a [null] node) the order that JavaScript gives is up to
    the engine, and this sort is one of the orders allowed. *)
Fixpoint sort_insert {A : Type} (compare : A → A → Z) (x : A)
  (sorted : list A) : list A :=
  match sorted with
  | [] => [x]
  | y :: rest =>
    if (0 <? compare x y)%Z then y :: sort_insert compare x rest
    else x :: y :: rest
  end.

Fixpoint Array_sort {A : Type} (compare : A → A → Z) (xs : list A) : list A :=
  match xs with
  | [] => []
  | x :: rest => sort_insert compare x (Array_sort compare rest)
  end.

(** Nodes of one document, each named by its place in document order. *)
Definition DOCUMENT_POSITION_PRECEDING : Z := 2.
Definition DOCUMENT_POSITION_FOLLOWING : Z := 4.

(** [a.compareDocumentPosition(z)], as far as the two bits that the
    source tests go. *)
Definition compareDocumentPosition (a z : nat) : Z :=
  if (a <? z)%nat then DOCUMENT_POSITION_FOLLOWING
  else if (z <? a)%nat then DOCUMENT_POSITION_PRECEDING
  else 0%Z.

Definition sortByDomNode {T : Type} (nodes : list T)
  (resolveKey : T → option nat) : list T :=
  Array_sort
    (λ aItem zItem,
       match resolveKey aItem, resolveKey zItem with
       | Some a, Some z =>
         let position := compareDocumentPosition a z in
         if negb (Z.land position DOCUMENT_POSITION_FOLLOWING =? 0)%Z
         then (-1)%Z
         else if negb (Z.land position DOCUMENT_POSITION_PRECEDING =? 0)%Z
         then 1%Z
         else 0%Z
       | _, _ => 0%Z
       end)
    nodes.

(** An [Option] object: what it holds, and the address that tells it
    from every other object ([o !== option] compares addresses). *)
Record OptionObject : Set := mkOptionObject {
  address : positive;
  contents : Option
}.

(** The rendered document: the node that an element ref points to, by
    its place in document order; a ref without an entry is [null]. *)
Abbreviation document := (gmap positive nat).

Definition element_current (doc : document) (o : OptionObject) : option nat :=
  doc !! element (contents o).

Inductive ActionType : Set := REGISTER_OPTION | UNREGISTER_OPTION.

Record Action : Set := mkAction {
  action_type : ActionType;
  action_key : string;
  action_option : OptionObject
}.

Abbreviation groups := (gmap string (list OptionObject)).

(** [pickerReducer].  The [default] branch of the source cannot be
    reached with an action of this type. *)
Definition pickerReducer (doc : document) (optionGroups : groups)
  (action : Action) : groups :=
  let key := action_key action in
  let option := action_option action in
  match action_type action with
  | REGISTER_OPTION =>
    let nextOptionsForKey := default [] (optionGroups !! key) ++ [option] in
    let nextOptionsForKey :=
      sortByDomNode nextOptionsForKey (element_current doc) in
    <[key := nextOptionsForKey]> optionGroups
  | UNREGISTER_OPTION =>
    <[key := filter (λ o, address o ≠ address option)
               (default [] (optionGroups !! key))]> optionGroups
  end.

(** [registerOption]: the action it dispatches, and the action that the
    function it returns dispatches. *)
Definition registerOption (key : string) (option : OptionObject)
  : Action * Action :=
  (mkAction REGISTER_OPTION key option, mkAction UNREGISTER_OPTION key option).

(** Registrations one after the other, as items mount. *)
Definition register_all (doc : document) (key : string)
  (mounting : list OptionObject) (optionGroups : groups) : groups :=
  foldl (λ registry o, pickerReducer doc registry (registerOption key o).1)
    optionGroups mounting.

(** The element of the option has a node, and [a] is not after [b] in
    the document. *)
Definition mounted (doc : document) (o : OptionObject) : Prop :=
  is_Some (element_current doc o).

Definition in_document_order (doc : document) (a b : OptionObject) : Prop :=
  match element_current doc a, element_current doc b with
  | Some pa, Some pb => (pa <= pb)%nat
  | _, _ => False
  end.

(** The groups as the context hands them to the columns. *)
Definition optionGroups_of (optionGroups : groups)
  : gmap string (list Option) :=
  map contents <$> optionGroups.

End Registry.

(** ** Picker.tsx: the props of the root and their defaults *)

Module PickerRoot.

Import Picker.

(** The props that reach the columns; [None] is a prop left out. *)
Record PickerRootProps : Type := mkPickerRootProps {
  value : ref;
  height : option R;
  itemHeight : option R;
  selectedItemHeight : option R;
  topOffset : option R;
  wheelMode : option WheelMode
}.

(** The destructuring with defaults, and [pickerData]. *)
Definition pickerData (props : PickerRootProps)
  (optionGroups : Registry.groups) : PickerData :=
  mkPickerData
    (default DEFAULT_HEIGHT (height props))
    (default DEFAULT_ITEM_HEIGHT (itemHeight props))
    (default DEFAULT_ITEM_HEIGHT (selectedItemHeight props))
    (default 0 (topOffset props))
    (default DEFAULT_WHEEL_MODE (wheelMode props))
    (value props)
    (Registry.optionGroups_of optionGroups).

(** One render of the root: its props and the state of the reducer.
    A dispatch makes a new registry object every time, so the object is
    told from the earlier ones by the number of dispatches so far. *)
Record Render : Type := mkRender {
  render_props : PickerRootProps;
  render_optionGroups : Registry.groups;
  dispatched : nat
}.

(** The dependency array of the [useMemo] around [pickerData]:
    [[height, itemHeight, value, optionGroups, wheelMode]]. *)
Definition pickerData_deps (r : Render) : R * R * ref * nat * WheelMode :=
  (default DEFAULT_HEIGHT (height (render_props r)),
   default DEFAULT_ITEM_HEIGHT (itemHeight (render_props r)),
   value (render_props r),
   dispatched r,
   default DEFAULT_WHEEL_MODE (wheelMode (render_props r))).

(** [useMemo]: the value of the previous render is kept while the
    dependencies are the same, and computed anew otherwise and on the
    first render. *)
Definition useMemo {D A : Type} `{EqDecision D} (compute : A) (deps : D)
  (previous : option (D * A)) : D * A :=
  match previous with
  | Some (deps', memoized) =>
    if decide (deps' = deps) then (deps', memoized) else (deps, compute)
  | None => (deps, compute)
  end.

(** The [pickerData] that a render hands to the columns. *)
Definition render_pickerData
  (previous : option (R * R * ref * nat * WheelMode * PickerData))
  (r : Render) : R * R * ref * nat * WheelMode * PickerData :=
  useMemo (pickerData (render_props r) (render_optionGroups r))
    (pickerData_deps r) previous.

(** The owner passing a new value object, everything else the same. *)
Definition with_value (next : ref) (data : PickerData) : PickerData :=
  mkPickerData (Picker.height data) (Picker.itemHeight data)
    (Picker.selectedItemHeight data) (Picker.topOffset data)
    (Picker.wheelMode data) next (optionGroups data).

End PickerRoot.

(** ** PickerItem.tsx *)

Module PickerItem.

Import Picker.

Section Item.

Variable data : PickerData.
Variable key : string.
Variable value : string.

(** [pickerValue[key] === value] *)
Definition isSelected (σ : heap) : bool :=
  bool_decide (read σ (groupValue data) key = Some value).

(** The height of [itemStyle], in pixels. *)
Definition itemStyle_height (σ : heap) : R :=
  if isSelected σ then selectedItemHeight data else itemHeight data.

Definition handleClick (σ : heap) : ChangeOutcome :=
  triggerChange σ (groupValue data) key value.

End Item.

End PickerItem.

(** ** A registry to evaluate the reducer on *)

Module RegistryFixtures.

Import Picker Registry.

(** Two elements, the second one rendered before the first. *)
Definition reversed_document : document :=
  {[ 1%positive := 7%nat; 2%positive := 3%nat ]}.

Definition option_a : OptionObject := mkOptionObject 10 (mkOption "a" 1).
Definition option_b : OptionObject := mkOptionObject 11 (mkOption "b" 2).

Definition registry_a : groups := {[ "c" := [option_a] ]}.

(** Both options, in the order of the reversed document, and the first
    item once more with another value. *)
Definition registry_ba : groups := {[ "c" := [option_b; option_a] ]}.

Definition option_a_renamed : OptionObject :=
  mkOptionObject 12 (mkOption "z" 1).

End RegistryFixtures.

(** ** Props to evaluate the root on *)

Module RootFixtures.

Import Picker PickerRoot.

(** Nothing but the value object. *)
Definition bare_props : PickerRootProps :=
  mkPickerRootProps 1%positive None None None None None.

(** The value object and an item height. *)
Definition props_with_itemHeight (h : R) : PickerRootProps :=
  mkPickerRootProps 1%positive None (Some h) None None None.

(** The defaults but for the wheel mode, with the single column ["c"]
    and the value object at the reference [1]. *)
Definition wheel_picker (mode : WheelMode) (values : list string)
  : PickerData :=
  mkPickerData DEFAULT_HEIGHT DEFAULT_ITEM_HEIGHT DEFAULT_ITEM_HEIGHT 0 mode
    1%positive {[ "c" := Fixtures.options_of values 1%positive ]}.

End RootFixtures.

(** ** Kinds of events and of calls *)

Module Events.

Import PickerColumn.

(** The events whose handlers reach [handleScrollerTranslateSettled]. *)
Definition settles (e : Event) : bool :=
  match e with
  | TouchEnd | WheelTimeout => true
  | _ => false
  end.

(** The events of the wheel and of its timer. *)
Definition is_wheel (e : Event) : bool :=
  match e with
  | Wheel _ | WheelTimeout => true
  | _ => false
  end.

(** [columnStyle.transitionDuration], in milliseconds. *)
Definition transitionDuration (s : ColumnState) : nat :=
  if isMoving s then 0%nat else 300%nat.

End Events.

(** ** Arithmetic of [Math.round] *)

Module RoundFacts.

Import JS.

Lemma Int_part_bounds (x : R) : IZR (Int_part x) <= x < IZR (Int_part x) + 1.
Proof.
  unfold Int_part. rewrite minus_IZR.
  destruct (archimed x) as [Hgt Hle]. lra.
Qed.

Lemma Int_part_unique (x : R) (k : Z) : IZR k <= x < IZR k + 1 → Int_part x = k.
Proof.
  intros [Hlo Hhi]. unfold Int_part.
  assert (Hup : (k + 1)%Z = up x).
  { apply tech_up; rewrite plus_IZR; lra. }
  rewrite <- Hup. lia.
Qed.

Lemma Math_round_bounds (x : R) :
  IZR (Math_round x) - / 2 <= x < IZR (Math_round x) + / 2.
Proof.
  unfold Math_round. pose proof (Int_part_bounds (x + / 2)). lra.
Qed.

Lemma Math_round_unique (x : R) (k : Z) :
  IZR k - / 2 <= x < IZR k + / 2 → Math_round x = k.
Proof.
  intros H. unfold Math_round. apply Int_part_unique. lra.
Qed.

Lemma Math_round_IZR (k : Z) : Math_round (IZR k) = k.
Proof. apply Math_round_unique. lra. Qed.

End RoundFacts.

(** ** Index resolution and the bounds of the translate *)

Module IndexFacts.

Import JS Picker PickerColumn Fixtures RoundFacts.

Lemma fixture_options h ih sih top values :
  options (picker h ih sih top values) "c" = options_of values 1%positive.
Proof. unfold options, picker. simpl. by rewrite lookup_singleton_eq. Qed.

Lemma fixture_minTranslate h ih sih top values :
  minTranslate (picker h ih sih top values) "c"
  = h / 2 - ih * INR (length values) + ih / 2 - top.
Proof.
  unfold minTranslate. rewrite fixture_options. simpl.
  assert (Hlen : ∀ vs node, length (options_of vs node) = length vs).
  { induction vs as [|v vs IH]; intros node; simpl; [done | by rewrite IH]. }
  by rewrite Hlen.
Qed.

(** Unfold a fixture down to arithmetic on literals. *)
Ltac fixture :=
  unfold tall_highlight, default_picker;
  rewrite ?fixture_minTranslate, ?fixture_options;
  unfold maxTranslate, settleTranslate, picker, DEFAULT_HEIGHT,
    DEFAULT_ITEM_HEIGHT;
  simpl;
  repeat match goal with
         | |- context [IZR ?z] =>
           progress (let z' := eval vm_compute in z in change z with z')
         end.

(** The two tests of [nextActiveIndex] are made in order: at or above
    [maxTranslate] the index is 0 whatever [minTranslate] is. *)
Lemma nextActiveIndex_top data key (o : R) :
  o >= maxTranslate data → nextActiveIndex data key o = 0%Z.
Proof.
  intros H. unfold nextActiveIndex. destruct (Rge_dec _ _); [done | lra].
Qed.

Lemma nextActiveIndex_bottom data key (o : R) :
  o < maxTranslate data → o <= minTranslate data key →
  nextActiveIndex data key o = (Z.of_nat (length (options data key)) - 1)%Z.
Proof.
  intros Hmax Hmin. unfold nextActiveIndex.
  destruct (Rge_dec _ _); [lra |]. destruct (Rle_dec _ _); [done | lra].
Qed.

Lemma nextActiveIndex_between data key (o : R) :
  minTranslate data key < o < maxTranslate data →
  nextActiveIndex data key o
  = (- Math_round ((o - maxTranslate data) / itemHeight data))%Z.
Proof.
  intros [Hmin Hmax]. unfold nextActiveIndex.
  destruct (Rge_dec _ _); [lra |]. destruct (Rle_dec _ _); [lra | done].
Qed.

(** C1 (as amended): an offset at or above maxOffset resolves to index 0,
    and an offset at or below minOffset that is also below maxOffset
    resolves to index optionCount - 1; the test against maxOffset is made
    first. *)
Theorem resolve_at_bounds data key (o : R) :
  (o >= maxTranslate data → nextActiveIndex data key o = 0%Z) ∧
  (o <= minTranslate data key → o < maxTranslate data →
   nextActiveIndex data key o = (Z.of_nat (length (options data key)) - 1)%Z).
Proof.
  split; [apply nextActiveIndex_top |].
  intros Hmin Hmax. by apply nextActiveIndex_bottom.
Qed.

Lemma resolve_at_bounds_witness :
  nextActiveIndex (default_picker ["a"; "b"; "c"]) "c" 90 = 0%Z ∧
  nextActiveIndex (default_picker ["a"; "b"; "c"]) "c" 18 = 2%Z.
Proof.
  destruct (resolve_at_bounds (default_picker ["a"; "b"; "c"]) "c" 90) as [Htop _].
  destruct (resolve_at_bounds (default_picker ["a"; "b"; "c"]) "c" 18) as [_ Hbot].
  split.
  - apply Htop. fixture. lra.
  - rewrite Hbot; fixture; [done | lra | lra].
Defined.

(** C1 as stated fails: with two options of height 36 under a highlight
    of height 108 both bounds are 54, and the offset 54, which is at or
    below minOffset, resolves to index 0 and not to index 1. *)
Lemma resolve_at_bounds_counterexample :
  (1 <= length (options (tall_highlight ["a"; "b"]) "c"))%nat ∧
  54 <= minTranslate (tall_highlight ["a"; "b"]) "c" ∧
  nextActiveIndex (tall_highlight ["a"; "b"]) "c" 54
  ≠ (Z.of_nat (length (options (tall_highlight ["a"; "b"]) "c")) - 1)%Z.
Proof.
  fixture. split; [lia |]. split; [lra |].
  rewrite nextActiveIndex_top; [done |]. fixture. lra.
Qed.

(** Two integers within a half of the same real are equal. *)
Lemma nearest_integer_unique (y : R) (i k : Z) :
  IZR i - / 2 < y < IZR i + / 2 → IZR k - / 2 < y < IZR k + / 2 → i = k.
Proof.
  intros Hi Hk.
  assert (Hlt : (i < k + 1)%Z) by (apply lt_IZR; rewrite plus_IZR; lra).
  assert (Hgt : (k < i + 1)%Z) by (apply lt_IZR; rewrite plus_IZR; lra).
  lia.
Qed.

Lemma round_half_away_from_zero_bounds (y : R) :
  IZR (Spec.round_half_away_from_zero y) - / 2 <= y
  <= IZR (Spec.round_half_away_from_zero y) + / 2.
Proof.
  unfold Spec.round_half_away_from_zero. destruct (Rle_dec 0 y).
  - pose proof (Int_part_bounds (y + / 2)). lra.
  - pose proof (Int_part_bounds (- y + / 2)). rewrite opp_IZR. lra.
Qed.

(** Strictly between the bounds the resolved index is within half a
    step of the distance to [maxTranslate], the upper half step
    included and the lower one not. *)
Lemma nextActiveIndex_nearest data key (o : R) :
  minTranslate data key < o < maxTranslate data →
  IZR (nextActiveIndex data key o) - / 2
  < (maxTranslate data - o) / itemHeight data
  <= IZR (nextActiveIndex data key o) + / 2.
Proof.
  intros Hbetween. rewrite nextActiveIndex_between by done.
  pose proof (Math_round_bounds ((o - maxTranslate data) / itemHeight data))
    as Hround.
  rewrite opp_IZR. unfold Rdiv in *. lra.
Qed.

(** C2 (as amended): strictly between the bounds the resolved index is
    the integer nearest to (maxOffset - offset) / itemHeight, and an
    offset exactly halfway between two settle positions resolves to the
    lower index, the one nearer to maxOffset; away from such ties it is
    the round-half-away-from-zero of the specification. *)
Theorem resolve_between_bounds data key (o : R) :
  itemHeight data ≠ 0 →
  minTranslate data key < o < maxTranslate data →
  let steps := (maxTranslate data - o) / itemHeight data in
  let index := nextActiveIndex data key o in
  IZR index - / 2 < steps <= IZR index + / 2 ∧
  ((∀ k : Z, steps ≠ IZR k + / 2) →
   index = Spec.round_half_away_from_zero steps).
Proof.
  intros Hih Hbetween steps index.
  pose proof (nextActiveIndex_nearest data key o Hbetween) as Hnear.
  fold steps index in Hnear.
  split; [exact Hnear |].
  intros Hno_tie.
  pose proof (round_half_away_from_zero_bounds steps) as Haway.
  pose proof (Hno_tie index) as Hi.
  pose proof (Hno_tie (Spec.round_half_away_from_zero steps)) as Hk.
  pose proof (Hno_tie (Spec.round_half_away_from_zero steps - 1)%Z) as Hk'.
  rewrite minus_IZR in Hk'.
  apply (nearest_integer_unique steps); lra.
Qed.

Lemma resolve_between_bounds_witness :
  IZR (nextActiveIndex (default_picker ["a"; "b"; "c"; "d"; "e"]) "c" 0) - / 2
  < (90 - 0) / 36
  <= IZR (nextActiveIndex (default_picker ["a"; "b"; "c"; "d"; "e"]) "c" 0) + / 2.
Proof.
  assert (Hih : itemHeight (default_picker ["a"; "b"; "c"; "d"; "e"]) ≠ 0).
  { fixture. lra. }
  assert (Hbetween :
    minTranslate (default_picker ["a"; "b"; "c"; "d"; "e"]) "c" < 0
    < maxTranslate (default_picker ["a"; "b"; "c"; "d"; "e"])).
  { fixture. lra. }
  destruct (resolve_between_bounds _ "c" 0 Hih Hbetween) as [Hnear _].
  revert Hnear. fixture. intros Hnear.
  replace (90 - 0) with (216 / 2 - 36 / 2 - 0 - 0) by lra. exact Hnear.
Defined.

(** C2 as stated fails: five options with the defaults give the bounds
    -54 and 90; the offset 0 is halfway between the settle positions of
    the indices 2 and 3, round-half-away-from-zero of 90/36 is 3, and the
    source resolves the index 2. *)
Lemma resolve_between_bounds_counterexample :
  minTranslate (default_picker ["a"; "b"; "c"; "d"; "e"]) "c" < 0
  < maxTranslate (default_picker ["a"; "b"; "c"; "d"; "e"]) ∧
  Spec.round_half_away_from_zero
    ((maxTranslate (default_picker ["a"; "b"; "c"; "d"; "e"]) - 0)
     / itemHeight (default_picker ["a"; "b"; "c"; "d"; "e"])) = 3%Z ∧
  nextActiveIndex (default_picker ["a"; "b"; "c"; "d"; "e"]) "c" 0 = 2%Z.
Proof.
  split; [fixture; lra |]. split.
  - fixture. unfold Spec.round_half_away_from_zero.
    destruct (Rle_dec _ _) as [_ | Hneg]; [| exfalso; apply Hneg; lra].
    apply Int_part_unique. simpl. lra.
  - rewrite nextActiveIndex_between by (fixture; lra).
    fixture. rewrite (Math_round_unique _ (-2)); [done |]. simpl. lra.
Qed.

End IndexFacts.

(** ** The bounds against the settle positions *)

Module GeometryFacts.

Import JS Picker PickerColumn Fixtures RoundFacts IndexFacts.

Lemma maxTranslate_settle_first data :
  maxTranslate data = settleTranslate data 0.
Proof. unfold maxTranslate, settleTranslate. lra. Qed.

(** [minTranslate] takes half an [itemHeight] where the settle position
    of the last option takes half a [selectedItemHeight]. *)
Lemma minTranslate_settle_last data key :
  minTranslate data key
  = settleTranslate data (Z.of_nat (length (options data key)) - 1)
    + (selectedItemHeight data - itemHeight data) / 2.
Proof.
  unfold minTranslate, settleTranslate.
  rewrite minus_IZR, <- INR_IZR_INZ. lra.
Qed.

Lemma settleTranslate_step data (i : Z) :
  settleTranslate data i = maxTranslate data - IZR i * itemHeight data.
Proof. unfold maxTranslate, settleTranslate. lra. Qed.

(** With a highlight lower than three items the settle position of every
    valid index resolves to that index. *)
Lemma settle_resolves_to_itself data key (i : Z) :
  0 < itemHeight data →
  selectedItemHeight data < 3 * itemHeight data →
  (0 <= i < Z.of_nat (length (options data key)))%Z →
  nextActiveIndex data key (settleTranslate data i) = i.
Proof.
  intros Hih Hsel [Hlo Hhi].
  destruct (Z.eq_dec i 0%Z) as [-> | Hpos].
  { apply nextActiveIndex_top. rewrite maxTranslate_settle_first. lra. }
  assert (Hi : 1 <= IZR i) by (apply IZR_le; lia).
  assert (Hbelow : settleTranslate data i < maxTranslate data).
  { rewrite settleTranslate_step. nra. }
  destruct (Rle_dec (settleTranslate data i) (minTranslate data key))
    as [Hmin | Hmin].
  - rewrite nextActiveIndex_bottom by done.
    rewrite minTranslate_settle_last, !settleTranslate_step in Hmin.
    rewrite minus_IZR, <- INR_IZR_INZ in Hmin.
    assert (Hlast : IZR (Z.of_nat (length (options data key))) < IZR i + 2).
    { rewrite <- INR_IZR_INZ. nra. }
    rewrite <- plus_IZR in Hlast. apply lt_IZR in Hlast. lia.
  - rewrite nextActiveIndex_between by lra.
    rewrite settleTranslate_step.
    replace ((maxTranslate data - IZR i * itemHeight data - maxTranslate data)
             / itemHeight data) with (IZR (- i)).
    + rewrite Math_round_IZR. lia.
    + rewrite opp_IZR. field. lra.
Qed.

(** C9 (the code as it is): with three options of height 36 under a
    highlight of height 108, maxOffset is the settle offset of the first
    option, 54, while minOffset is 18 and the settle offset of the last
    option is -18. *)
Theorem bounds_under_tall_highlight :
  maxTranslate (tall_highlight ["a"; "b"; "c"])
  = settleTranslate (tall_highlight ["a"; "b"; "c"]) 0 ∧
  minTranslate (tall_highlight ["a"; "b"; "c"]) "c" = 18 ∧
  settleTranslate (tall_highlight ["a"; "b"; "c"])
    (Z.of_nat (length (options (tall_highlight ["a"; "b"; "c"]) "c")) - 1)
  = -18.
Proof.
  split; [apply maxTranslate_settle_first |].
  split; fixture; lra.
Qed.

(** C3 (the code as it is): with three options of height 36 under a
    highlight of height 108, the settle offset of index 1 is 18; it
    resolves to index 2, whose settle offset is -18. *)
Theorem settle_roundtrip_under_tall_highlight :
  settleTranslate (tall_highlight ["a"; "b"; "c"]) 1 = 18 ∧
  nextActiveIndex (tall_highlight ["a"; "b"; "c"]) "c"
    (settleTranslate (tall_highlight ["a"; "b"; "c"]) 1) = 2%Z ∧
  settleTranslate (tall_highlight ["a"; "b"; "c"]) 2 = -18.
Proof.
  split; [fixture; lra |]. split; [| fixture; lra].
  rewrite nextActiveIndex_bottom; fixture; [done | lra | lra].
Qed.

(** With at least one option, a positive [itemHeight] and a
    [selectedItemHeight] that is not negative, the resolved index is an
    index of the array. *)
Lemma nextActiveIndex_in_range data key (o : R) :
  (1 <= length (options data key))%nat →
  0 < itemHeight data → 0 <= selectedItemHeight data →
  (0 <= nextActiveIndex data key o < Z.of_nat (length (options data key)))%Z.
Proof.
  intros Hn Hih Hsel.
  destruct (Rge_dec o (maxTranslate data)) as [Htop | Htop].
  { rewrite nextActiveIndex_top by done. lia. }
  destruct (Rle_dec o (minTranslate data key)) as [Hbot | Hbot].
  { rewrite nextActiveIndex_bottom by lra. lia. }
  assert (Hbetween : minTranslate data key < o < maxTranslate data) by lra.
  pose proof (nextActiveIndex_nearest data key o Hbetween) as Hnear.
  set (index := nextActiveIndex data key o) in *.
  set (steps := (maxTranslate data - o) / itemHeight data) in *.
  assert (Hsteps : steps * itemHeight data = maxTranslate data - o).
  { subst steps. field. lra. }
  assert (Hpos : 0 < steps) by nra.
  assert (Hlen : steps * itemHeight data
                 < (INR (length (options data key)) - / 2) * itemHeight data).
  { rewrite Hsteps. unfold minTranslate, maxTranslate in *. lra. }
  assert (Hup : steps < INR (length (options data key)) - / 2) by nra.
  rewrite INR_IZR_INZ in Hup.
  split.
  - assert (H : (-1 < index)%Z) by (apply lt_IZR; lra). lia.
  - apply lt_IZR. lra.
Qed.

End GeometryFacts.

(** ** The value store *)

Module StoreFacts.

Import JS Picker PickerColumn Fixtures.

Lemma spread_with_fresh (σ : heap) obj key v :
  σ !! (spread_with σ obj key v).1 = None.
Proof.
  unfold spread_with. simpl. apply not_elem_of_dom, is_fresh.
Qed.

Lemma triggerChange_unchanged (σ : heap) value key v :
  read σ value key = Some v →
  triggerChange σ value key v = mkChangeOutcome false σ [].
Proof. intros H. unfold triggerChange. by rewrite decide_True. Qed.

Lemma triggerChange_changed (σ : heap) value key v :
  read σ value key ≠ Some v →
  triggerChange σ value key v
  = mkChangeOutcome true (spread_with σ value key v).2
      [((spread_with σ value key v).1, key)].
Proof. intros H. unfold triggerChange. by rewrite decide_False. Qed.

(** C4: [change(key, v)] returns false exactly when the current value
    for [key] is [v], and then calls nothing and leaves the heap alone;
    otherwise it returns true and calls [onChange] once, with [key] and
    a new object that maps [key] to [v] and every other key as the old
    object does, the old object and every other object staying as they
    were. *)
Theorem change_commits_iff_different (σ : heap) value (old : PickerValue)
  key v :
  σ !! value = Some old →
  let outcome := triggerChange σ value key v in
  (committed outcome = false ↔ old !! key = Some v) ∧
  (committed outcome = false →
   onChange_calls outcome = [] ∧ heap_after outcome = σ) ∧
  (committed outcome = true →
   ∃ next : ref,
     onChange_calls outcome = [(next, key)] ∧
     σ !! next = None ∧
     heap_after outcome !! next = Some (<[key := v]> old) ∧
     (∀ k, k ≠ key → read (heap_after outcome) next k = old !! k) ∧
     heap_after outcome !! value = Some old ∧
     (∀ obj, obj ≠ next → heap_after outcome !! obj = σ !! obj)).
Proof.
  intros Hold outcome.
  assert (Hread : read σ value key = old !! key).
  { unfold read. by rewrite Hold. }
  destruct (decide (old !! key = Some v)) as [Heq | Hne].
  - subst outcome. rewrite triggerChange_unchanged by congruence. simpl.
    split; [done |]. split; [done | discriminate].
  - subst outcome. rewrite triggerChange_changed by congruence. simpl.
    split; [split; [discriminate | done] |]. split; [discriminate |].
    intros _. pose proof (spread_with_fresh σ value key v) as Hfresh.
    exists (spread_with σ value key v).1.
    unfold spread_with in *. simpl in *. rewrite Hold. simpl.
    split; [done |]. split; [done |].
    split; [by rewrite lookup_insert_eq |].
    split.
    { intros k Hk. unfold read. rewrite lookup_insert_eq. simpl.
      by rewrite lookup_insert_ne. }
    split.
    { rewrite lookup_insert_ne; [done |]. intros Habs.
      rewrite Habs in Hfresh. congruence. }
    intros obj Hobj. by rewrite lookup_insert_ne.
Qed.

Lemma change_commits_iff_different_witness :
  committed (triggerChange (heap_with "a") 1%positive "c" "b") = true ∧
  committed (triggerChange (heap_with "a") 1%positive "c" "a") = false.
Proof.
  assert (Hold : heap_with "a" !! 1%positive = Some ({[ "c" := "a" ]} : PickerValue)).
  { unfold heap_with. by rewrite lookup_singleton_eq. }
  destruct (change_commits_iff_different _ _ _ "c" "b" Hold) as [[Hb _] _].
  destruct (change_commits_iff_different _ _ _ "c" "a" Hold) as [[_ Ha] _].
  split.
  - destruct (committed (triggerChange (heap_with "a") 1%positive "c" "b"));
      [done |].
    specialize (Hb eq_refl). rewrite lookup_singleton_eq in Hb. congruence.
  - apply Ha. by rewrite lookup_singleton_eq.
Defined.

End StoreFacts.

(** ** The selected index *)

Module SelectionFacts.

Import JS Picker PickerColumn Fixtures.

Lemma findIndex_from_none {A : Type} (p : A → bool) (xs : list A) (i : Z) :
  (∀ x, x ∈ xs → p x = false) → findIndex_from p xs i = (-1)%Z.
Proof.
  revert i. induction xs as [| x xs IH]; intros i Hnone; simpl; [done |].
  rewrite (Hnone x) by apply list_elem_of_here.
  apply IH. intros y Hy. apply Hnone. by apply list_elem_of_further.
Qed.

Lemma findIndex_from_first {A : Type} (p : A → bool) (before : list A)
  (x : A) (after : list A) (i : Z) :
  (∀ y, y ∈ before → p y = false) → p x = true →
  findIndex_from p (before ++ x :: after) i = (i + Z.of_nat (length before))%Z.
Proof.
  revert i. induction before as [| b before IH]; intros i Hnone Hx; simpl.
  - rewrite Hx. lia.
  - rewrite (Hnone b) by apply list_elem_of_here.
    rewrite IH; [lia | | done].
    intros y Hy. apply Hnone. by apply list_elem_of_further.
Qed.




End SelectionFacts.

(** ** Gestures *)

Module GestureFacts.

Import JS Picker PickerColumn Fixtures RoundFacts IndexFacts GeometryFacts.

(** C6: with minOffset <= maxOffset, which the specification assumes of
    every column that has an option, the clamp of a raw offset is
    minOffset - (minOffset - raw)^0.8 when raw < minOffset, it is
    maxOffset + (raw - maxOffset)^0.8 when raw > maxOffset, and it is raw
    itself when minOffset <= raw <= maxOffset. *)
Theorem rubber_band_clamp data key (raw : R) (s : ColumnState) :
  minTranslate data key <= maxTranslate data →
  let offset := scrollerTranslate (updateScrollerWhileMoving data key raw s) in
  (raw < minTranslate data key →
   offset = minTranslate data key - Math_pow (minTranslate data key - raw) 0.8) ∧
  (raw > maxTranslate data →
   offset = maxTranslate data + Math_pow (raw - maxTranslate data) 0.8) ∧
  (minTranslate data key <= raw <= maxTranslate data → offset = raw).
Proof.
  intros Hbounds. unfold updateScrollerWhileMoving.
  cbn [scrollerTranslate setScrollerTranslate].
  repeat split; intros; destruct (Rlt_dec _ _); try lra;
    destruct (Rgt_dec _ _); lra.
Qed.

Lemma rubber_band_clamp_witness :
  scrollerTranslate
    (updateScrollerWhileMoving (default_picker ["a"; "b"; "c"]) "c" 10
       (at_rest 90))
  = 18 - Math_pow (18 - 10) 0.8 ∧
  scrollerTranslate
    (updateScrollerWhileMoving (default_picker ["a"; "b"; "c"]) "c" 91
       (at_rest 90))
  = 90 + Math_pow (91 - 90) 0.8 ∧
  scrollerTranslate
    (updateScrollerWhileMoving (default_picker ["a"; "b"; "c"]) "c" 50
       (at_rest 90))
  = 50.
Proof.
  assert (Hmin : minTranslate (default_picker ["a"; "b"; "c"]) "c" = 18)
    by (fixture; lra).
  assert (Hmax : maxTranslate (default_picker ["a"; "b"; "c"]) = 90)
    by (fixture; lra).
  assert (Hbounds :
    minTranslate (default_picker ["a"; "b"; "c"]) "c"
    <= maxTranslate (default_picker ["a"; "b"; "c"]))
    by (rewrite Hmin, Hmax; lra).
  destruct (rubber_band_clamp (default_picker ["a"; "b"; "c"]) "c" 10
              (at_rest 90) Hbounds) as (Hbelow & _ & _).
  destruct (rubber_band_clamp (default_picker ["a"; "b"; "c"]) "c" 91
              (at_rest 90) Hbounds) as (_ & Habove & _).
  destruct (rubber_band_clamp (default_picker ["a"; "b"; "c"]) "c" 50
              (at_rest 90) Hbounds) as (_ & _ & Hwithin).
  split; [| split].
  - rewrite Hbelow by (rewrite Hmin; lra). by rewrite Hmin.
  - rewrite Habove by (rewrite Hmax; lra). by rewrite Hmax.
  - apply Hwithin. rewrite Hmin, Hmax. lra.
Defined.

(** With a sound geometry the source finds an option at the resolved
    index. *)
Lemma resolved_option_exists data key (o : R) :
  (1 <= length (options data key))%nat →
  0 < itemHeight data → 0 <= selectedItemHeight data →
  is_Some (array_get (options data key) (nextActiveIndex data key o)).
Proof.
  intros Hn Hih Hsel.
  pose proof (nextActiveIndex_in_range data key o Hn Hih Hsel) as [Hlo Hhi].
  unfold array_get. destruct (Z.ltb_spec (nextActiveIndex data key o) 0); [lia |].
  apply lookup_lt_is_Some. lia.
Qed.

Lemma settled_with_option data key (s : ColumnState) (σ : heap) (o : Option) :
  array_get (options data key)
    (nextActiveIndex data key (scrollerTranslate s)) = Some o →
  handleScrollerTranslateSettled data key s σ
  = let changed := triggerChange σ (groupValue data) key (Picker.value o) in
    mkOutcome
      (if committed changed then s
       else setScrollerTranslate
              (settleTranslate data
                 (nextActiveIndex data key (scrollerTranslate s))) s)
      (heap_after changed)
      (map (λ c, OnChange c.1 c.2) (onChange_calls changed))
      false.
Proof. intros H. unfold handleScrollerTranslateSettled. by rewrite H. Qed.

Lemma settled_without_options data key (s : ColumnState) (σ : heap) :
  options data key = [] →
  handleScrollerTranslateSettled data key s σ = mkOutcome s σ [] true.
Proof.
  intros Hempty. unfold handleScrollerTranslateSettled, array_get.
  rewrite Hempty. destruct (_ <? _)%Z; [done |]. by rewrite lookup_nil.
Qed.



(** C8 (the code as it is): on a column without options the settle
    handler throws, at the end of a drag and when the wheel settles
    alike; [change] is not called. *)
Theorem settle_without_options_throws data key (s : ColumnState) (σ : heap) :
  options data key = [] →
  (threw (handleWheelEnd data key s σ) = true ∧
   calls (handleWheelEnd data key s σ) = [] ∧
   store (handleWheelEnd data key s σ) = σ) ∧
  (isMoving s = true →
   threw (handleTouchEnd data key s σ) = true ∧
   calls (handleTouchEnd data key s σ) = [] ∧
   store (handleTouchEnd data key s σ) = σ).
Proof.
  intros Hempty. split.
  - unfold handleWheelEnd. by rewrite settled_without_options.
  - intros Hmoving. unfold handleTouchEnd. rewrite Hmoving.
    by rewrite settled_without_options.
Qed.

Lemma settle_without_options_throws_witness :
  threw (handleWheelEnd (default_picker []) "c" (at_rest 90) (heap_with "a"))
  = true ∧
  threw (handleTouchEnd (default_picker []) "c" (dragging 100 90)
           (heap_with "a")) = true.
Proof.
  assert (Hempty : options (default_picker []) "c" = []).
  { unfold default_picker. by rewrite fixture_options. }
  destruct (settle_without_options_throws _ _ (at_rest 90) (heap_with "a")
              Hempty) as [(Hwheel & _) _].
  destruct (settle_without_options_throws _ _ (dragging 100 90) (heap_with "a")
              Hempty) as [_ Htouch].
  split; [exact Hwheel |]. by apply Htouch.
Defined.

End GestureFacts.

(** ** A drag that is cancelled *)

Module CancelFacts.

Import JS Picker PickerColumn Fixtures.

Lemma run_app data key (es later : list Event) (s : ColumnState) (σ : heap) :
  run data key (es ++ later) s σ
  = let a := run data key es s σ in
    let b := run data key later (state a) (store a) in
    mkOutcome (state b) (store b) (calls a ++ calls b) (threw a || threw b).
Proof.
  revert s σ. induction es as [| e es IH]; intros s σ; simpl.
  - by destruct (run data key later s σ).
  - rewrite IH. simpl. by rewrite app_assoc, orb_assoc.
Qed.

Lemma updateScrollerWhileMoving_keeps data key (x : R) (s : ColumnState) :
  startScrollerTranslate (updateScrollerWhileMoving data key x s)
  = startScrollerTranslate s ∧
  isMoving (updateScrollerWhileMoving data key x s) = isMoving s.
Proof. done. Qed.

(** A move keeps the translate captured at the start of the gesture,
    marks the column as moving, leaves the heap alone and calls nothing
    but [focusChange]. *)
Lemma handleTouchMove_keeps data key (pageY : R) (s : ColumnState) (σ : heap) :
  let out := handleTouchMove data key pageY s σ in
  startScrollerTranslate (state out) = startScrollerTranslate s ∧
  isMoving (state out) = true ∧
  store out = σ ∧
  Forall is_focus (calls out).
Proof.
  unfold handleTouchMove, handleScrollerTranslateUpdating. simpl.
  repeat split.
  - by destruct (isMoving s).
  - by destruct (isMoving s) eqn:Hmoving.
  - destruct (array_get _ _); simpl; [| by constructor].
    by repeat constructor.
Qed.

Lemma moves_keep data key (pageYs : list R) (s : ColumnState) (σ : heap) :
  let out := run data key (map TouchMove pageYs) s σ in
  startScrollerTranslate (state out) = startScrollerTranslate s ∧
  (pageYs = [] → state out = s) ∧
  (pageYs ≠ [] → isMoving (state out) = true) ∧
  store out = σ ∧
  Forall is_focus (calls out).
Proof.
  revert s σ. induction pageYs as [| y ys IH]; intros s σ;
    cbn [map run dispatch state store calls threw].
  { repeat split; try done; by constructor. }
  destruct (handleTouchMove_keeps data key y s σ)
    as (Hstart & Hmoving & Hstore & Hcalls).
  destruct (IH (state (handleTouchMove data key y s σ))
               (store (handleTouchMove data key y s σ)))
    as (IHstart & IHnil & IHmoving & IHstore & IHcalls).
  repeat split.
  - by rewrite IHstart.
  - done.
  - intros _. destruct ys as [| y' ys]; [by rewrite IHnil | by apply IHmoving].
  - by rewrite IHstore.
  - by apply Forall_app.
Qed.

(** C7: a gesture that starts, moves any number of times and is then
    cancelled ends with the offset it started from, the very value that
    the start captured; nothing was committed on the way (the only calls
    are those of [focusChange], and the heap is the one before the
    gesture), and the column is not moving any more. *)
Theorem cancelled_drag_restores_offset data key (pageY : R) (pageYs : list R)
  (s : ColumnState) (σ : heap) :
  let out :=
    run data key (TouchStart pageY :: map TouchMove pageYs ++ [TouchCancel])
      s σ in
  scrollerTranslate (state out) = scrollerTranslate s ∧
  isMoving (state out) = false ∧
  Forall is_focus (calls out) ∧
  store out = σ.
Proof.
  cbn [run dispatch state store calls threw]. rewrite run_app.
  cbn [run dispatch state store calls threw].
  destruct (moves_keep data key pageYs (handleTouchStart pageY s) σ)
    as (Hstart & Hnil & Hmoving & Hstore & Hcalls).
  set (moved := run data key (map TouchMove pageYs) (handleTouchStart pageY s) σ)
    in *.
  assert (Hcancel :
    scrollerTranslate (handleTouchCancel (state moved)) = scrollerTranslate s ∧
    isMoving (handleTouchCancel (state moved)) = false).
  { unfold handleTouchCancel.
    destruct (isMoving (state moved)) eqn:Hm; simpl.
    - by rewrite Hstart.
    - destruct pageYs as [| y ys].
      + by rewrite Hnil.
      + by specialize (Hmoving ltac:(done)). }
  destruct Hcancel as [Htranslate Hidle].
  repeat split; try done.
  rewrite app_nil_r. exact Hcalls.
Qed.

(** The same for one step: cancelling while the column is moving writes
    the captured translate back and resets the rest of the gesture. *)
Lemma handleTouchCancel_moving (s : ColumnState) :
  isMoving s = true →
  handleTouchCancel s
  = mkColumnState (startScrollerTranslate s) 0 false 0 (wheelingTimer s).
Proof. intros H. unfold handleTouchCancel. by rewrite H. Qed.

End CancelFacts.

(** ** The option registry *)

Module RegistryFacts.

Import JS Picker Registry RegistryFixtures.

Lemma sort_insert_Permutation {A : Type} (compare : A → A → Z) (x : A)
  (l : list A) : sort_insert compare x l ≡ₚ x :: l.
Proof.
  induction l as [| y l IH]; simpl; [done |].
  destruct (0 <? compare x y)%Z; [| done].
  rewrite IH. apply Permutation_swap.
Qed.

Lemma Array_sort_Permutation {A : Type} (compare : A → A → Z) (l : list A) :
  Array_sort compare l ≡ₚ l.
Proof.
  induction l as [| x l IH]; simpl; [done |].
  by rewrite sort_insert_Permutation, IH.
Qed.

(** The comparator of [sortByDomNode] on two options that have nodes. *)
Lemma sortByDomNode_unfold {T : Type} (nodes : list T) resolveKey :
  ∃ compare : T → T → Z,
    sortByDomNode nodes resolveKey = Array_sort compare nodes ∧
    ∀ a z pa pz, resolveKey a = Some pa → resolveKey z = Some pz →
                 (0 <? compare a z)%Z = (pz <? pa)%nat.
Proof.
  eexists. split; [reflexivity |].
  intros a z pa pz Ha Hz. simpl. rewrite Ha, Hz.
  unfold compareDocumentPosition.
  destruct (Nat.ltb_spec pa pz) as [Hlt | Hge]; simpl.
  - symmetry. apply Nat.ltb_ge. lia.
  - destruct (Nat.ltb_spec pz pa); by simpl.
Qed.

Lemma in_document_order_trans doc : Transitive (in_document_order doc).
Proof.
  intros a b c. unfold in_document_order.
  destruct (element_current doc a), (element_current doc b),
    (element_current doc c); try done. lia.
Qed.

Lemma sort_insert_sorted doc (compare : OptionObject → OptionObject → Z)
  (x : OptionObject) (l : list OptionObject) :
  (∀ a z pa pz, element_current doc a = Some pa →
                element_current doc z = Some pz →
                (0 <? compare a z)%Z = (pz <? pa)%nat) →
  mounted doc x → Forall (mounted doc) l →
  StronglySorted (in_document_order doc) l →
  StronglySorted (in_document_order doc) (sort_insert compare x l).
Proof.
  intros Hcompare [px Hx] Hl Hsorted.
  induction Hsorted as [| y l Hsorted IH Hy]; simpl.
  { repeat constructor. }
  apply Forall_cons in Hl as [[py Hpy] Hl].
  rewrite (Hcompare x y px py) by done.
  destruct (Nat.ltb_spec py px) as [Hlt | Hge].
  - constructor; [by apply IH |].
    rewrite sort_insert_Permutation. constructor; [| done].
    unfold in_document_order. rewrite Hpy, Hx. lia.
  - assert (Hxy : in_document_order doc x y).
    { unfold in_document_order. rewrite Hpy, Hx. lia. }
    constructor; [by constructor |].
    constructor; [done |].
    eapply Forall_impl; [exact Hy |].
    intros z Hz. by eapply in_document_order_trans.
Qed.

Lemma sortByDomNode_sorted doc (l : list OptionObject) :
  Forall (mounted doc) l →
  StronglySorted (in_document_order doc)
    (sortByDomNode l (element_current doc)) ∧
  sortByDomNode l (element_current doc) ≡ₚ l.
Proof.
  intros Hl.
  destruct (sortByDomNode_unfold l (element_current doc))
    as (compare & -> & Hcompare).
  split; [| apply Array_sort_Permutation].
  induction Hl as [| x l Hx Hl IH]; simpl; [constructor |].
  apply (sort_insert_sorted doc); try done.
  by rewrite Array_sort_Permutation.
Qed.

Lemma reducer_register_lookup doc (optionGroups : groups) key o :
  pickerReducer doc optionGroups (registerOption key o).1 !! key
  = Some (sortByDomNode (default [] (optionGroups !! key) ++ [o])
            (element_current doc)).
Proof. unfold pickerReducer. simpl. by rewrite lookup_insert_eq. Qed.

Lemma reducer_other_key doc (optionGroups : groups) action k :
  k ≠ action_key action →
  pickerReducer doc optionGroups action !! k = optionGroups !! k.
Proof.
  intros Hk. unfold pickerReducer.
  destruct (action_type action); by rewrite lookup_insert_ne.
Qed.

(** X1.  Registering an option while every option of the group has a node
    leaves the group in document order, whatever order it was in, with
    the same options and the new one, and leaves the other groups as
    they were. *)
Theorem register_sorts_group doc (optionGroups : groups) key o :
  Forall (mounted doc) (default [] (optionGroups !! key) ++ [o]) →
  let next := pickerReducer doc optionGroups (registerOption key o).1 in
  ∃ group,
    next !! key = Some group ∧
    group ≡ₚ default [] (optionGroups !! key) ++ [o] ∧
    StronglySorted (in_document_order doc) group ∧
    ∀ k, k ≠ key → next !! k = optionGroups !! k.
Proof.
  intros Hmounted next.
  destruct (sortByDomNode_sorted doc _ Hmounted) as [Hsorted Hperm].
  eexists. split; [apply reducer_register_lookup |].
  split; [done |]. split; [done |].
  intros k Hk. by apply reducer_other_key.
Qed.

Lemma register_sorts_group_witness :
  ∃ group,
    pickerReducer reversed_document registry_a (registerOption "c" option_b).1
      !! "c" = Some group ∧
    group ≡ₚ default [] (registry_a !! "c") ++ [option_b] ∧
    StronglySorted (in_document_order reversed_document) group ∧
    ∀ k, k ≠ "c" →
         pickerReducer reversed_document registry_a
           (registerOption "c" option_b).1 !! k = registry_a !! k.
Proof.
  apply (register_sorts_group reversed_document registry_a "c" option_b).
  unfold registry_a. rewrite lookup_singleton_eq. simpl.
  repeat constructor; by eexists.
Defined.

Lemma register_all_other_key doc key (mounting : list OptionObject)
  (optionGroups : groups) k :
  k ≠ key →
  register_all doc key mounting optionGroups !! k = optionGroups !! k.
Proof.
  intros Hk. revert optionGroups.
  induction mounting as [| o mounting IH]; intros optionGroups; simpl; [done |].
  unfold register_all in *. simpl. rewrite IH.
  by apply reducer_other_key.
Qed.

Lemma register_all_group doc key o (mounting : list OptionObject)
  (optionGroups : groups) :
  Forall (mounted doc) (default [] (optionGroups !! key) ++ o :: mounting) →
  ∃ group,
    register_all doc key (o :: mounting) optionGroups !! key = Some group ∧
    group ≡ₚ default [] (optionGroups !! key) ++ o :: mounting ∧
    StronglySorted (in_document_order doc) group.
Proof.
  revert o optionGroups.
  induction mounting as [| o' mounting IH]; intros o optionGroups Hmounted.
  - destruct (sortByDomNode_sorted doc _ Hmounted) as [Hsorted Hperm].
    eexists. split; [apply reducer_register_lookup | done].
  - set (first := pickerReducer doc optionGroups (registerOption key o).1).
    assert (Hfirst : default [] (first !! key)
                     ≡ₚ default [] (optionGroups !! key) ++ [o]).
    { subst first. rewrite reducer_register_lookup. simpl.
      apply sortByDomNode_sorted.
      apply Forall_app in Hmounted as [Hold Hnew].
      apply Forall_cons in Hnew as [Ho _].
      apply Forall_app. split; [done | by constructor]. }
    destruct (IH o' first) as (group & Hgroup & Hperm & Hsorted).
    { rewrite Hfirst, <- app_assoc. exact Hmounted. }
    exists group. split; [exact Hgroup |]. split; [| done].
    by rewrite Hperm, Hfirst, <- app_assoc.
Qed.

(** X2.  Options that have nodes of their own end up in the same group, in
    document order, whatever the order in which they register. *)
Theorem registration_order_is_irrelevant doc key
  (mounting mounting' : list OptionObject) (optionGroups : groups) :
  mounting ≡ₚ mounting' →
  Forall (mounted doc) (default [] (optionGroups !! key) ++ mounting) →
  (∀ a b, a ∈ default [] (optionGroups !! key) ++ mounting →
          b ∈ default [] (optionGroups !! key) ++ mounting →
          element_current doc a = element_current doc b → a = b) →
  register_all doc key mounting optionGroups
  = register_all doc key mounting' optionGroups.
Proof.
  intros Hperm Hmounted Hdistinct.
  destruct mounting as [| o mounting].
  { by rewrite (Permutation_nil Hperm). }
  destruct mounting' as [| o' mounting'].
  { symmetry in Hperm. by apply Permutation_nil_cons in Hperm. }
  apply map_eq. intros k. destruct (decide (k = key)) as [-> | Hk].
  - destruct (register_all_group doc key o mounting optionGroups Hmounted)
      as (group & -> & Hgroup & Hsorted).
    destruct (register_all_group doc key o' mounting' optionGroups)
      as (group' & -> & Hgroup' & Hsorted').
    { by rewrite <- Hperm. }
    f_equal. apply (StronglySorted_unique_strong (in_document_order doc));
      try done.
    + intros a b Ha Hb Hab Hba. apply Hdistinct.
      * by rewrite <- Hgroup.
      * by rewrite Hperm, <- Hgroup'.
      * unfold in_document_order in *.
        destruct (element_current doc a), (element_current doc b);
          try done. f_equal. lia.
    + by rewrite Hgroup, Hgroup', Hperm.
  - by rewrite !register_all_other_key.
Qed.

Lemma registration_order_is_irrelevant_witness :
  register_all reversed_document "c" [option_a; option_b] ∅
  = register_all reversed_document "c" [option_b; option_a] ∅.
Proof.
  apply registration_order_is_irrelevant.
  - apply Permutation_swap.
  - rewrite lookup_empty. simpl. repeat constructor; by eexists.
  - rewrite lookup_empty. simpl. intros a b Ha Hb.
    rewrite !elem_of_cons, elem_of_nil in Ha, Hb.
    destruct Ha as [-> | [-> | []]], Hb as [-> | [-> | []]];
      vm_compute; congruence.
Defined.

(** X3.  Unregistering removes the option objects that are the given one and
    no other: the rest of the group stays, in the order it had, an
    option with the same value included. *)
Theorem unregister_removes_by_identity doc (optionGroups : groups) key o :
  let next := pickerReducer doc optionGroups (registerOption key o).2 in
  ∃ group,
    next !! key = Some group ∧
    group `sublist_of` default [] (optionGroups !! key) ∧
    (∀ x, x ∈ group ↔
          x ∈ default [] (optionGroups !! key) ∧ address x ≠ address o) ∧
    ∀ k, k ≠ key → next !! k = optionGroups !! k.
Proof.
  intros next. eexists. split.
  { subst next. unfold pickerReducer. simpl. apply lookup_insert_eq. }
  split; [apply sublist_filter |].
  split.
  - intros x. rewrite list_elem_of_filter. tauto.
  - intros k Hk. by apply reducer_other_key.
Qed.

Lemma filter_keeps_all {A : Type} (P : A → Prop) `{∀ x, Decision (P x)}
  (l : list A) : Forall P l → filter P l = l.
Proof.
  induction 1 as [| x l Hx Hl IH]; [done |].
  by rewrite filter_cons_True, IH.
Qed.

Lemma sort_insert_head doc (compare : OptionObject → OptionObject → Z)
  (y z : OptionObject) (l : list OptionObject) :
  (∀ a z pa pz, element_current doc a = Some pa →
                element_current doc z = Some pz →
                (0 <? compare a z)%Z = (pz <? pa)%nat) →
  in_document_order doc y z →
  sort_insert compare y (z :: l) = y :: z :: l.
Proof.
  intros Hcompare Hyz. simpl. unfold in_document_order in Hyz.
  destruct (element_current doc y) as [py |] eqn:Hpy; [| done].
  destruct (element_current doc z) as [pz |] eqn:Hpz; [| done].
  rewrite (Hcompare y z py pz) by done.
  destruct (Nat.ltb_spec pz py); [lia | done].
Qed.

(** Sorting a group that is in document order with one more option at
    its end puts that option somewhere and moves nothing else. *)
Lemma sortByDomNode_snoc doc (l : list OptionObject) (x : OptionObject) :
  StronglySorted (in_document_order doc) l →
  Forall (mounted doc) l → mounted doc x →
  ∃ l1 l2,
    sortByDomNode (l ++ [x]) (element_current doc) = l1 ++ x :: l2 ∧
    l1 ++ l2 = l.
Proof.
  intros Hsorted Hl Hx.
  destruct (sortByDomNode_unfold (l ++ [x]) (element_current doc))
    as (compare & -> & Hcompare).
  induction Hsorted as [| y l Hsorted IH Hy]; simpl.
  { by exists [], []. }
  apply Forall_cons in Hl as [[py Hpy] Hl].
  destruct (IH Hl) as (l1 & l2 & -> & <-).
  destruct l1 as [| z l1]; cbn [app] in *.
  - destruct Hx as [px Hpx]. cbn [sort_insert].
    rewrite (Hcompare y x py px) by done.
    destruct (Nat.ltb_spec px py).
    + destruct l2 as [| z l2]; [by exists [], [y] |].
      apply Forall_cons in Hy as [Hyz _].
      rewrite (sort_insert_head doc) by done. by exists [], (y :: z :: l2).
    + by exists [y], l2.
  - apply Forall_cons in Hy as [Hyz _].
    rewrite (sort_insert_head doc) by done.
    by exists (y :: z :: l1), l2.
Qed.

(** X4.  The function that [registerOption] returns undoes the registration:
    on a group that is in document order, registering an option object
    that is not in it yet and unregistering it again gives the registry
    back. *)
Theorem register_then_unregister doc (optionGroups : groups) key o
  (group : list OptionObject) :
  optionGroups !! key = Some group →
  StronglySorted (in_document_order doc) group →
  Forall (mounted doc) group → mounted doc o →
  Forall (λ x, address x ≠ address o) group →
  pickerReducer doc
    (pickerReducer doc optionGroups (registerOption key o).1)
    (registerOption key o).2
  = optionGroups.
Proof.
  intros Hgroup Hsorted Hmounted Ho Hfresh.
  destruct (sortByDomNode_snoc doc group o) as (l1 & l2 & Hsort & <-);
    try done.
  assert (Hfirst :
    pickerReducer doc optionGroups (registerOption key o).1
    = <[key := l1 ++ o :: l2]> optionGroups).
  { unfold pickerReducer. simpl. rewrite Hgroup. simpl. by rewrite Hsort. }
  rewrite Hfirst. unfold pickerReducer. simpl.
  rewrite lookup_insert_eq, insert_insert_eq. simpl.
  apply insert_id. rewrite Hgroup. f_equal.
  apply Forall_app in Hfresh as [H1 H2].
  rewrite filter_app, filter_cons_False by (intros H; by apply H).
  by rewrite !filter_keeps_all.
Qed.

(** X5.  An item that changes its value keeps its place: unregistering the
    option object of an item and registering a new one on the same
    element, in a group that is in document order on nodes that are all
    different, puts the new object where the old one was. *)
Theorem reregistering_keeps_the_place doc (optionGroups : groups) key
  (l1 l2 : list OptionObject) (old new : OptionObject) :
  optionGroups !! key = Some (l1 ++ old :: l2) →
  StronglySorted (in_document_order doc) (l1 ++ old :: l2) →
  Forall (mounted doc) (l1 ++ old :: l2) →
  (∀ a b, a ∈ l1 ++ old :: l2 → b ∈ l1 ++ old :: l2 →
          element_current doc a = element_current doc b → a = b) →
  Forall (λ x, address x ≠ address old) (l1 ++ l2) →
  element (contents new) = element (contents old) →
  pickerReducer doc
    (pickerReducer doc optionGroups (registerOption key old).2)
    (registerOption key new).1
  = <[key := l1 ++ new :: l2]> optionGroups.
Proof.
  intros Hgroup Hsorted Hmounted Hdistinct Hothers Helement.
  assert (Hcurrent : element_current doc new = element_current doc old).
  { unfold element_current. by rewrite Helement. }
  assert (Hremoved :
    pickerReducer doc optionGroups (registerOption key old).2
    = <[key := l1 ++ l2]> optionGroups).
  { unfold pickerReducer. simpl. rewrite Hgroup. simpl. f_equal.
    apply Forall_app in Hothers as [H1 H2].
    rewrite filter_app, filter_cons_False by (intros H; by apply H).
    by rewrite !filter_keeps_all. }
  rewrite Hremoved. unfold pickerReducer. simpl.
  rewrite lookup_insert_eq, insert_insert_eq. simpl. f_equal.
  assert (Hmounted' : Forall (mounted doc) ((l1 ++ l2) ++ [new])).
  { apply Forall_app in Hmounted as [H1 Hrest].
    apply Forall_cons in Hrest as [Hold H2].
    repeat (apply Forall_app; split); try done.
    constructor; [| done]. unfold mounted. by rewrite Hcurrent. }
  destruct (sortByDomNode_sorted doc _ Hmounted') as [Hresult Hperm].
  assert (Hsame_order : ∀ x,
    in_document_order doc x new ↔ in_document_order doc x old).
  { intros x. unfold in_document_order. by rewrite Hcurrent. }
  assert (Hsame_order' : ∀ x,
    in_document_order doc new x ↔ in_document_order doc old x).
  { intros x. unfold in_document_order. by rewrite Hcurrent. }
  assert (Hplaced : StronglySorted (in_document_order doc) (l1 ++ new :: l2)).
  { clear - Hsorted Hsame_order Hsame_order'.
    induction l1 as [| x l1 IH]; simpl in *.
    - apply StronglySorted_inv in Hsorted as [Hl2 Hold].
      constructor; [done |].
      eapply Forall_impl; [exact Hold |]. intros y. apply Hsame_order'.
    - apply StronglySorted_inv in Hsorted as [Hrest Hx].
      constructor; [by apply IH |].
      apply Forall_app in Hx as [Hx1 Hx2].
      apply Forall_cons in Hx2 as [Hxold Hx2].
      apply Forall_app. split; [done |].
      constructor; [by apply Hsame_order | done]. }
  apply (StronglySorted_unique_strong (in_document_order doc)); try done.
  - intros a b Ha Hb Hab Hba.
    assert (Hnodes : element_current doc a = element_current doc b).
    { unfold in_document_order in *.
      destruct (element_current doc a), (element_current doc b);
        try done. f_equal. lia. }
    rewrite Hperm in Ha.
    assert (Hin : ∀ x, x ∈ (l1 ++ l2) ++ [new] ∨ x ∈ l1 ++ new :: l2 →
                       x = new ∨ (x ∈ l1 ++ old :: l2 ∧ address x ≠ address old)).
    { intros x Hx. rewrite Forall_forall in Hothers.
      rewrite !elem_of_app, !elem_of_cons, elem_of_nil in Hx.
      destruct Hx as [[[H | H] | [H | []]] | [H | [H | H]]]; try (by left);
        right; (split; [| apply Hothers; rewrite elem_of_app; tauto]);
        rewrite elem_of_app, elem_of_cons; tauto. }
    destruct (Hin a (or_introl Ha)) as [-> | [Ha' Haddr]],
      (Hin b (or_intror Hb)) as [-> | [Hb' Hbaddr]]; try done.
    + exfalso. apply Hbaddr. f_equal. apply Hdistinct; try done.
      * rewrite elem_of_app, elem_of_cons. tauto.
      * by rewrite <- Hnodes, Hcurrent.
    + exfalso. apply Haddr. f_equal. apply Hdistinct; try done.
      * rewrite elem_of_app, elem_of_cons. tauto.
      * by rewrite Hnodes, Hcurrent.
    + by apply Hdistinct.
  - rewrite Hperm. etrans; [| apply Permutation_middle].
    symmetry. apply Permutation_cons_append.
Qed.

Lemma reregistering_keeps_the_place_witness :
  pickerReducer reversed_document
    (pickerReducer reversed_document registry_ba
       (registerOption "c" option_a).2)
    (registerOption "c" option_a_renamed).1
  = <["c" := [option_b] ++ option_a_renamed :: []]> registry_ba.
Proof.
  apply (reregistering_keeps_the_place reversed_document registry_ba "c"
           [option_b] [] option_a option_a_renamed).
  - unfold registry_ba. by rewrite lookup_singleton_eq.
  - repeat constructor; vm_compute; lia.
  - repeat constructor; by eexists.
  - intros a b Ha Hb. simpl in Ha, Hb.
    rewrite !elem_of_cons, elem_of_nil in Ha, Hb.
    destruct Ha as [-> | [-> | []]], Hb as [-> | [-> | []]];
      vm_compute; congruence.
  - repeat constructor; vm_compute; congruence.
  - done.
Defined.

Lemma register_then_unregister_witness :
  pickerReducer reversed_document
    (pickerReducer reversed_document registry_a
       (registerOption "c" option_b).1)
    (registerOption "c" option_b).2
  = registry_a.
Proof.
  apply (register_then_unregister reversed_document registry_a "c" option_b
           [option_a]).
  - unfold registry_a. by rewrite lookup_singleton_eq.
  - repeat constructor.
  - repeat constructor. by eexists.
  - by eexists.
  - repeat constructor. vm_compute. congruence.
Defined.

End RegistryFacts.

(** ** Items *)

Module ItemFacts.

Import JS PickerRoot Picker PickerColumn PickerItem Fixtures.

Lemma read_spread_same (σ : heap) obj key v :
  read (spread_with σ obj key v).2 (spread_with σ obj key v).1 key = Some v.
Proof.
  unfold read, spread_with. simpl. rewrite lookup_insert_eq. simpl.
  by rewrite lookup_insert_eq.
Qed.

Lemma read_spread_other (σ : heap) obj key v k :
  k ≠ key →
  read (spread_with σ obj key v).2 (spread_with σ obj key v).1 k
  = read σ obj k.
Proof.
  intros Hk. unfold read, spread_with. simpl. rewrite lookup_insert_eq. simpl.
  rewrite lookup_insert_ne by done. by destruct (σ !! obj).
Qed.

(** X6.  A click on the item that is selected calls nothing.  A click on any
    other item calls [onChange] once; once the owner passes the object
    of that call as the value, the item is the selected one of its
    column, and every item of another column is selected or not as it
    was before. *)
Theorem click_selects_item data key value (σ : heap) :
  (isSelected data key value σ = true →
   handleClick data key value σ = mkChangeOutcome false σ []) ∧
  (isSelected data key value σ = false →
   ∃ next,
     committed (handleClick data key value σ) = true ∧
     onChange_calls (handleClick data key value σ) = [(next, key)] ∧
     isSelected (with_value next data) key value
       (heap_after (handleClick data key value σ)) = true ∧
     ∀ k v, k ≠ key →
       isSelected (with_value next data) k v
         (heap_after (handleClick data key value σ))
       = isSelected data k v σ).
Proof.
  unfold isSelected, handleClick. split; intros Hselected.
  - apply bool_decide_eq_true in Hselected.
    by apply StoreFacts.triggerChange_unchanged.
  - apply bool_decide_eq_false in Hselected.
    rewrite StoreFacts.triggerChange_changed by done.
    exists (spread_with σ (groupValue data) key value).1.
    cbn [committed onChange_calls heap_after groupValue with_value].
    split; [done |]. split; [done |]. split.
    + apply bool_decide_eq_true. apply read_spread_same.
    + intros k v Hk. by rewrite read_spread_other.
Qed.

Lemma click_selects_item_witness :
  handleClick (default_picker ["a"; "b"]) "c" "a" (heap_with "a")
  = mkChangeOutcome false (heap_with "a") [] ∧
  committed (handleClick (default_picker ["a"; "b"]) "c" "b" (heap_with "a"))
  = true.
Proof.
  destruct (click_selects_item (default_picker ["a"; "b"]) "c" "a"
              (heap_with "a")) as [Hsame _].
  destruct (click_selects_item (default_picker ["a"; "b"]) "c" "b"
              (heap_with "a")) as [_ Hother].
  split.
  - apply Hsame. by vm_compute.
  - destruct Hother as (next & Hcommitted & _); [by vm_compute | done].
Defined.

Lemma first_match {A : Type} (p : A → bool) (xs : list A) :
  (∃ x, x ∈ xs ∧ p x = true) →
  ∃ before x after,
    xs = before ++ x :: after ∧ p x = true ∧ ∀ y, y ∈ before → p y = false.
Proof.
  induction xs as [| x xs IH]; intros (y & Hy & Hpy).
  { by apply elem_of_nil in Hy. }
  destruct (p x) eqn:Hpx.
  - exists [], x, xs. split; [done |]. split; [done |].
    intros z Hz. by apply elem_of_nil in Hz.
  - destruct IH as (before & m & after & -> & Hm & Hbefore).
    { apply elem_of_cons in Hy as [-> | Hy]; [congruence | eauto]. }
    exists (x :: before), m, after. split; [done |]. split; [done |].
    intros z Hz. apply elem_of_cons in Hz as [-> | Hz]; [done | eauto].
Qed.

Lemma array_get_middle {A : Type} (before : list A) (x : A) (after : list A) :
  array_get (before ++ x :: after) (Z.of_nat (length before)) = Some x.
Proof.
  unfold array_get. destruct (Z.ltb_spec (Z.of_nat (length before)) 0); [lia |].
  rewrite Nat2Z.id. by apply list_lookup_middle.
Qed.

(** X7.  When some item of the column is drawn as selected, the item at the
    column's selected index is drawn as selected, and no item before it
    is.  When no item is drawn as selected the selected index is 0 all
    the same, and every item has the height [itemHeight]. *)
Theorem selected_index_points_at_selected_item data key (σ : heap) :
  ((∃ o, o ∈ options data key ∧
         isSelected data key (Picker.value o) σ = true) →
   ∃ o,
     array_get (options data key) (selectedIndex data key σ) = Some o ∧
     isSelected data key (Picker.value o) σ = true ∧
     ∀ j p, (0 <= j < selectedIndex data key σ)%Z →
            array_get (options data key) j = Some p →
            isSelected data key (Picker.value p) σ = false) ∧
  ((∀ o, o ∈ options data key →
         isSelected data key (Picker.value o) σ = false) →
   selectedIndex data key σ = 0%Z ∧
   ∀ o, o ∈ options data key →
        itemStyle_height data key (Picker.value o) σ = itemHeight data).
Proof.
  assert (Hsame : ∀ o,
    bool_decide (Some (Picker.value o) = PickerColumn.value data key σ)
    = isSelected data key (Picker.value o) σ).
  { intros o. unfold isSelected, PickerColumn.value.
    apply bool_decide_ext. split; congruence. }
  split.
  - intros Hsome.
    destruct (first_match (λ o, isSelected data key (Picker.value o) σ)
                (options data key) Hsome)
      as (before & o & after & Hsplit & Ho & Hbefore).
    assert (Hindex : selectedIndex data key σ = Z.of_nat (length before)).
    { unfold selectedIndex, findIndex. rewrite Hsplit.
      rewrite SelectionFacts.findIndex_from_first.
      - destruct (Z.ltb_spec (0 + Z.of_nat (length before)) 0); lia.
      - intros p Hp. rewrite Hsame. by apply Hbefore.
      - by rewrite Hsame. }
    exists o. rewrite Hindex, Hsplit.
    split; [apply array_get_middle |]. split; [done |].
    intros j p Hj Hp. apply Hbefore.
    unfold array_get in Hp. destruct (Z.ltb_spec j 0); [lia |].
    rewrite lookup_app_l in Hp by lia.
    by eapply list_elem_of_lookup_2.
  - intros Hnone. split.
    + unfold selectedIndex, findIndex.
      rewrite SelectionFacts.findIndex_from_none; [done |].
      intros o Ho. rewrite Hsame. by apply Hnone.
    + intros o Ho. unfold itemStyle_height. by rewrite Hnone.
Qed.

Lemma selected_index_points_at_selected_item_witness :
  ∃ o,
    array_get (options (default_picker ["a"; "b"; "b"]) "c")
      (selectedIndex (default_picker ["a"; "b"; "b"]) "c" (heap_with "b"))
    = Some o ∧
    isSelected (default_picker ["a"; "b"; "b"]) "c" (Picker.value o)
      (heap_with "b") = true.
Proof.
  destruct (selected_index_points_at_selected_item
              (default_picker ["a"; "b"; "b"]) "c" (heap_with "b"))
    as [Hsome _].
  destruct Hsome as (o & Ho & Hselected & _).
  - exists (mkOption "b" 2). split; [| by vm_compute].
    unfold default_picker. rewrite IndexFacts.fixture_options. simpl.
    apply list_elem_of_further, list_elem_of_here.
  - by exists o.
Defined.

End ItemFacts.

(** ** The props of the root against the geometry of the column *)

Module RootFacts.

Import JS PickerRoot Picker PickerColumn Fixtures RegistryFixtures RootFixtures
  IndexFacts GeometryFacts.

(** X8.  When the highlight is as high as an item, as it is with the
    defaults of the root, the upper bound is the settle offset of the
    first option, the lower bound resolves to the last option, and the
    settle offset of every valid index resolves to that index. *)
Theorem equal_heights_settle_offsets_resolve data key :
  selectedItemHeight data = itemHeight data →
  0 < itemHeight data →
  maxTranslate data
  = height data / 2 - selectedItemHeight data / 2
    - 0 * itemHeight data - topOffset data ∧
  ((1 <= length (options data key))%nat →
   nextActiveIndex data key (minTranslate data key)
   = (Z.of_nat (length (options data key)) - 1)%Z) ∧
  ∀ i, (0 <= i < Z.of_nat (length (options data key)))%Z →
       nextActiveIndex data key
         (height data / 2 - selectedItemHeight data / 2
          - IZR i * itemHeight data - topOffset data) = i.
Proof.
  intros Hequal Hpositive.
  assert (Hresolve : ∀ i, (0 <= i < Z.of_nat (length (options data key)))%Z →
                          nextActiveIndex data key (settleTranslate data i) = i).
  { intros i Hi. apply settle_resolves_to_itself; [done | lra | done]. }
  split; [unfold maxTranslate; lra |]. split; [| exact Hresolve].
  intros Hn.
  replace (minTranslate data key)
    with (settleTranslate data (Z.of_nat (length (options data key)) - 1)).
  - apply Hresolve. lia.
  - rewrite minTranslate_settle_last, Hequal. lra.
Qed.

Lemma equal_heights_settle_offsets_resolve_witness :
  nextActiveIndex (pickerData bare_props registry_ba) "c"
    (216 / 2 - 36 / 2 - 1 * 36 - 0) = 1%Z ∧
  nextActiveIndex (pickerData bare_props registry_ba) "c"
    (minTranslate (pickerData bare_props registry_ba) "c") = 1%Z.
Proof.
  destruct (equal_heights_settle_offsets_resolve
              (pickerData bare_props registry_ba) "c")
    as (_ & Hlast & Hresolve).
  - done.
  - simpl. unfold DEFAULT_ITEM_HEIGHT. lra.
  - split.
    + apply (Hresolve 1%Z). by vm_compute.
    + apply Hlast. vm_compute. lia.
Defined.

(** X9.  A root that is given [itemHeight] and not [selectedItemHeight] keeps
    a highlight of height 36: the lower bound is then off the settle
    offset of the last option by (36 - itemHeight) / 2. *)
Theorem selectedItemHeight_does_not_follow_itemHeight
  (props : PickerRootProps) (optionGroups : Registry.groups) key (h : R) :
  PickerRoot.itemHeight props = Some h →
  PickerRoot.selectedItemHeight props = None →
  let data := pickerData props optionGroups in
  selectedItemHeight data = 36 ∧
  minTranslate data key
  = settleTranslate data (Z.of_nat (length (options data key)) - 1)
    + (36 - h) / 2.
Proof.
  intros Hitem Hselected data.
  assert (Hsel : selectedItemHeight data = 36).
  { subst data. unfold pickerData. simpl. by rewrite Hselected. }
  assert (Hih : Picker.itemHeight data = h).
  { subst data. unfold pickerData. simpl. by rewrite Hitem. }
  split; [done |].
  by rewrite minTranslate_settle_last, Hsel, Hih.
Qed.

Lemma selectedItemHeight_does_not_follow_itemHeight_witness :
  selectedItemHeight (pickerData (props_with_itemHeight 50) ∅) = 36.
Proof.
  by apply (selectedItemHeight_does_not_follow_itemHeight
              (props_with_itemHeight 50) ∅ "c" 50).
Defined.

(** X10.  The columns do not see a change of [selectedItemHeight] or of
    [topOffset] alone: these two are not among the dependencies of the
    memoized [pickerData], so a render that differs from the previous
    one in nothing else hands the previous data on, with the highlight
    height and the top offset of before. *)
Theorem highlight_props_alone_are_not_passed_on
  (previous : Render) (h ih sih top : option R) (sih' top' : option R)
  (value : ref) (mode : option WheelMode) (optionGroups : Registry.groups)
  (n : nat) :
  let before :=
    mkRender (mkPickerRootProps value h ih sih top mode) optionGroups n in
  let after :=
    mkRender (mkPickerRootProps value h ih sih' top' mode) optionGroups n in
  let first := render_pickerData None before in
  let second := render_pickerData (Some first) after in
  second.2 = pickerData (render_props before) optionGroups ∧
  selectedItemHeight second.2 = default DEFAULT_ITEM_HEIGHT sih ∧
  topOffset second.2 = default 0 top.
Proof.
  intros before after first second. subst second first.
  unfold render_pickerData, useMemo. cbn [fst snd].
  rewrite decide_True by done. done.
Qed.

End RootFacts.

(** ** The rubber band *)

Module BandFacts.

Import JS Picker PickerColumn Fixtures IndexFacts.

Lemma Math_pow_positive (x y : R) : 0 < Math_pow x y.
Proof. unfold Math_pow, Rpower. apply exp_pos. Qed.

Lemma Math_pow_increasing (a b : R) :
  0 < a < b → Math_pow a 0.8 < Math_pow b 0.8.
Proof. intros H. unfold Math_pow. apply Rlt_Rpower_l; lra. Qed.

Lemma Math_pow_above_one (x : R) : 1 < x → 1 < Math_pow x 0.8 < x.
Proof.
  intros Hx. unfold Math_pow, Rpower.
  assert (Hln : 0 < ln x) by (rewrite <- ln_1; apply ln_increasing; lra).
  split.
  - rewrite <- exp_0. apply exp_increasing. nra.
  - rewrite <- (exp_ln x) at 2 by lra. apply exp_increasing. nra.
Qed.

Lemma Math_pow_below_one (x : R) : 0 < x < 1 → x < Math_pow x 0.8 < 1.
Proof.
  intros Hx. unfold Math_pow, Rpower.
  assert (Hln : ln x < 0) by (rewrite <- ln_1; apply ln_increasing; lra).
  split.
  - rewrite <- (exp_ln x) at 1 by lra. apply exp_increasing. nra.
  - rewrite <- exp_0. apply exp_increasing. nra.
Qed.

Lemma Math_pow_one : Math_pow 1 0.8 = 1.
Proof. unfold Math_pow, Rpower. rewrite ln_1, Rmult_0_r. apply exp_0. Qed.

Lemma clamp_below data key (raw : R) (s : ColumnState) :
  raw < minTranslate data key →
  scrollerTranslate (updateScrollerWhileMoving data key raw s)
  = minTranslate data key - Math_pow (minTranslate data key - raw) 0.8.
Proof.
  intros H. unfold updateScrollerWhileMoving. simpl.
  destruct (Rlt_dec _ _); [done | lra].
Qed.

Lemma clamp_above data key (raw : R) (s : ColumnState) :
  minTranslate data key <= raw → maxTranslate data < raw →
  scrollerTranslate (updateScrollerWhileMoving data key raw s)
  = maxTranslate data + Math_pow (raw - maxTranslate data) 0.8.
Proof.
  intros Hmin Hmax. unfold updateScrollerWhileMoving. simpl.
  destruct (Rlt_dec _ _); [lra |]. destruct (Rgt_dec _ _); [done | lra].
Qed.

Lemma clamp_within data key (raw : R) (s : ColumnState) :
  minTranslate data key <= raw <= maxTranslate data →
  scrollerTranslate (updateScrollerWhileMoving data key raw s) = raw.
Proof.
  intros H. unfold updateScrollerWhileMoving. simpl.
  destruct (Rlt_dec _ _); [lra |]. destruct (Rgt_dec _ _); [lra | done].
Qed.

(** X11.  While the lower bound is not above the upper one, the scroller
    follows the finger in direction: of two raw offsets the higher one
    gives the higher offset, inside the bounds, beyond them and across
    them. *)
Theorem clamp_is_strictly_increasing data key (a b : R) (s : ColumnState) :
  minTranslate data key <= maxTranslate data →
  a < b →
  scrollerTranslate (updateScrollerWhileMoving data key a s)
  < scrollerTranslate (updateScrollerWhileMoving data key b s).
Proof.
  intros Hbounds Hab.
  destruct (Rlt_dec a (minTranslate data key)) as [Ha | Ha];
    [rewrite (clamp_below _ _ a) by done
    | destruct (Rgt_dec a (maxTranslate data)) as [Ha' | Ha'];
      [rewrite (clamp_above _ _ a) by lra
      | rewrite (clamp_within _ _ a) by lra]];
  (destruct (Rlt_dec b (minTranslate data key)) as [Hb | Hb];
    [rewrite (clamp_below _ _ b) by done
    | destruct (Rgt_dec b (maxTranslate data)) as [Hb' | Hb'];
      [rewrite (clamp_above _ _ b) by lra
      | rewrite (clamp_within _ _ b) by lra]]);
  try lra.
  - pose proof (Math_pow_increasing (minTranslate data key - b)
                  (minTranslate data key - a)). lra.
  - pose proof (Math_pow_positive (minTranslate data key - a) 0.8).
    pose proof (Math_pow_positive (b - maxTranslate data) 0.8). lra.
  - pose proof (Math_pow_positive (minTranslate data key - a) 0.8). lra.
  - pose proof (Math_pow_increasing (a - maxTranslate data)
                  (b - maxTranslate data)). lra.
  - pose proof (Math_pow_positive (b - maxTranslate data) 0.8). lra.
Qed.

Lemma clamp_is_strictly_increasing_witness :
  scrollerTranslate
    (updateScrollerWhileMoving (default_picker ["a"; "b"; "c"]) "c" 95
       (at_rest 90))
  < scrollerTranslate
      (updateScrollerWhileMoving (default_picker ["a"; "b"; "c"]) "c" 99
         (at_rest 90)).
Proof.
  apply clamp_is_strictly_increasing; fixture; lra.
Defined.

(** X12.  Beyond the upper bound the scroller is past the bound by the 0.8th
    power of what the raw offset is past it: less than the raw overshoot
    once that is more than one pixel, and more than the raw overshoot
    while that is less than one pixel.  The same holds below the lower
    bound. *)
Theorem overscroll_is_damped_beyond_one_pixel data key (raw : R)
  (s : ColumnState) :
  minTranslate data key <= maxTranslate data →
  let offset := scrollerTranslate (updateScrollerWhileMoving data key raw s) in
  (maxTranslate data + 1 < raw →
   maxTranslate data + 1 < offset < raw) ∧
  (maxTranslate data < raw < maxTranslate data + 1 →
   raw < offset < maxTranslate data + 1) ∧
  (raw < minTranslate data key - 1 →
   raw < offset < minTranslate data key - 1) ∧
  (minTranslate data key - 1 < raw < minTranslate data key →
   minTranslate data key - 1 < offset < raw).
Proof.
  intros Hbounds offset. subst offset.
  split; [| split; [| split]]; intros Hraw.
  - rewrite clamp_above by lra.
    pose proof (Math_pow_above_one (raw - maxTranslate data)). lra.
  - rewrite clamp_above by lra.
    pose proof (Math_pow_below_one (raw - maxTranslate data)). lra.
  - rewrite clamp_below by lra.
    pose proof (Math_pow_above_one (minTranslate data key - raw)). lra.
  - rewrite clamp_below by lra.
    pose proof (Math_pow_below_one (minTranslate data key - raw)). lra.
Qed.

Lemma overscroll_is_damped_beyond_one_pixel_witness :
  90 + 1
  < scrollerTranslate
      (updateScrollerWhileMoving (default_picker ["a"; "b"; "c"]) "c" 100
         (at_rest 90))
  < 100.
Proof.
  destruct (overscroll_is_damped_beyond_one_pixel
              (default_picker ["a"; "b"; "c"]) "c" 100 (at_rest 90))
    as (Hdamped & _).
  - fixture. lra.
  - revert Hdamped. fixture. intros Hdamped.
    replace (90 + 1) with (216 / 2 - 36 / 2 - 0 + 1) by lra.
    apply Hdamped. lra.
Defined.

(** X13.  Letting go beyond a bound picks the option at that end: an offset
    clamped from above the upper bound resolves to index 0, and one
    clamped from below the lower bound resolves to the last index. *)
Theorem overscroll_resolves_to_the_end data key (raw : R) (s : ColumnState) :
  minTranslate data key <= maxTranslate data →
  let offset := scrollerTranslate (updateScrollerWhileMoving data key raw s) in
  (maxTranslate data < raw → nextActiveIndex data key offset = 0%Z) ∧
  (raw < minTranslate data key →
   nextActiveIndex data key offset
   = (Z.of_nat (length (options data key)) - 1)%Z).
Proof.
  intros Hbounds offset. subst offset. split; intros Hraw.
  - rewrite clamp_above by lra.
    pose proof (Math_pow_positive (raw - maxTranslate data) 0.8).
    apply nextActiveIndex_top. lra.
  - rewrite clamp_below by lra.
    pose proof (Math_pow_positive (minTranslate data key - raw) 0.8).
    apply nextActiveIndex_bottom; lra.
Qed.

Lemma overscroll_resolves_to_the_end_witness :
  nextActiveIndex (default_picker ["a"; "b"; "c"]) "c"
    (scrollerTranslate
       (updateScrollerWhileMoving (default_picker ["a"; "b"; "c"]) "c" 100
          (at_rest 90))) = 0%Z.
Proof.
  destruct (overscroll_resolves_to_the_end
              (default_picker ["a"; "b"; "c"]) "c" 100 (at_rest 90))
    as (Htop & _).
  - fixture. lra.
  - apply Htop. fixture. lra.
Defined.

End BandFacts.

(** ** Traces of events *)

Module TraceFacts.

Import JS Picker PickerColumn Events Fixtures IndexFacts GeometryFacts.

Lemma triggerChange_preserves (σ : heap) value key v obj (fields : PickerValue) :
  σ !! obj = Some fields →
  heap_after (triggerChange σ value key v) !! obj = Some fields.
Proof.
  intros Hobj. unfold triggerChange. destruct (decide _); [done |].
  unfold spread_with. cbn [heap_after].
  rewrite lookup_insert_ne; [done |]. intros Heq.
  apply (is_fresh (dom σ)), elem_of_dom. exists fields.
  rewrite <- Hobj. f_equal. exact Heq.
Qed.

Lemma triggerChange_call (σ : heap) value key v next k :
  (next, k) ∈ onChange_calls (triggerChange σ value key v) →
  k = key ∧
  read (heap_after (triggerChange σ value key v)) next key = Some v ∧
  (∀ k', k' ≠ key →
         read (heap_after (triggerChange σ value key v)) next k'
         = read σ value k') ∧
  is_Some (heap_after (triggerChange σ value key v) !! next).
Proof.
  unfold triggerChange. destruct (decide _); simpl.
  { intros H. by apply elem_of_nil in H. }
  intros H. apply list_elem_of_singleton in H. injection H as -> ->.
  split; [done |]. split; [apply ItemFacts.read_spread_same |].
  split; [intros k' Hk'; by apply ItemFacts.read_spread_other |].
  unfold spread_with. simpl. rewrite lookup_insert_eq. by eexists.
Qed.

Lemma read_preserved (σ σ' : heap) obj k :
  is_Some (σ !! obj) →
  (∀ fields, σ !! obj = Some fields → σ' !! obj = Some fields) →
  read σ' obj k = read σ obj k.
Proof.
  intros [fields Hobj] Hkeep. unfold read. by rewrite (Hkeep fields), Hobj.
Qed.

Lemma array_get_elem_of {A : Type} (xs : list A) (i : Z) (x : A) :
  array_get xs i = Some x → x ∈ xs.
Proof.
  unfold array_get. destruct (i <? 0)%Z; [done |].
  apply list_elem_of_lookup_2.
Qed.

(** What one event does to the heap and which commits it makes. *)
Lemma dispatch_commits data key (e : Event) (s : ColumnState) (σ : heap) :
  let out := dispatch data key e s σ in
  (∀ obj fields, σ !! obj = Some fields → store out !! obj = Some fields) ∧
  (settles e = false → store out = σ ∧ Forall is_focus (calls out)) ∧
  ∀ next k, OnChange next k ∈ calls out →
    k = key ∧
    (∃ o, o ∈ options data key ∧
          read (store out) next key = Some (Picker.value o)) ∧
    (∀ k', k' ≠ key →
           read (store out) next k' = read σ (groupValue data) k') ∧
    is_Some (store out !! next).
Proof.
  assert (Hsettled : ∀ s',
    let out := handleScrollerTranslateSettled data key s' σ in
    (∀ obj fields, σ !! obj = Some fields → store out !! obj = Some fields) ∧
    ∀ next k, OnChange next k ∈ calls out →
      k = key ∧
      (∃ o, o ∈ options data key ∧
            read (store out) next key = Some (Picker.value o)) ∧
      (∀ k', k' ≠ key →
             read (store out) next k' = read σ (groupValue data) k') ∧
      is_Some (store out !! next)).
  { intros s'. unfold handleScrollerTranslateSettled.
    destruct (array_get _ _) as [o |] eqn:Ho; simpl.
    - split; [intros obj fields; apply triggerChange_preserves |].
      intros next k Hcall. apply list_elem_of_fmap in Hcall as ([n k0] & Heq & Hin).
      simpl in Heq. injection Heq as -> ->.
      destruct (triggerChange_call _ _ _ _ _ _ Hin) as (-> & Hkey & Hother & Hsome).
      split; [done |]. split; [| done].
      exists o. split; [by eapply array_get_elem_of | done].
    - split; [done |]. intros next k H. by apply elem_of_nil in H. }
  assert (Hnone : ∀ s' cs t,
    Forall is_focus cs →
    let out := mkOutcome s' σ cs t in
    (∀ obj fields, σ !! obj = Some fields → store out !! obj = Some fields) ∧
    (store out = σ ∧ Forall is_focus (calls out)) ∧
    ∀ next k, OnChange next k ∈ calls out →
      k = key ∧
      (∃ o, o ∈ options data key ∧
            read (store out) next key = Some (Picker.value o)) ∧
      (∀ k', k' ≠ key →
             read (store out) next k' = read σ (groupValue data) k') ∧
      is_Some (store out !! next)).
  { intros s' cs t Hfocus. simpl. split; [done |]. split; [done |].
    intros next k Hcall. rewrite Forall_forall in Hfocus.
    by apply Hfocus in Hcall. }
  destruct e; simpl.
  - destruct (Hnone (handleTouchStart pageY s) [] false) as (? & ? & ?);
      [constructor | done].
  - unfold handleTouchMove, handleScrollerTranslateUpdating.
    destruct (array_get _ _); simpl.
    + destruct (Hnone (updateScrollerWhileMoving data key
                         (startScrollerTranslate s + pageY - startTouchY s)
                         (if isMoving s then s else setIsMoving true s))
                  (focusChange key (Picker.value o)) false) as (? & ? & ?);
        [by repeat constructor | done].
    + destruct (Hnone (updateScrollerWhileMoving data key
                         (startScrollerTranslate s + pageY - startTouchY s)
                         (if isMoving s then s else setIsMoving true s))
                  [] true) as (? & ? & ?); [constructor | done].
  - unfold handleTouchEnd. destruct (isMoving s).
    + destruct (Hsettled
        (setStartScrollerTranslate 0 (setStartTouchY 0 (setIsMoving false s))))
        as [Hkeep Hcalls].
      split; [done |]. split; [done | exact Hcalls].
    + destruct (Hnone s [] false) as (? & ? & ?); [constructor | done].
  - destruct (Hnone (handleTouchCancel s) [] false) as (? & ? & ?);
      [constructor | done].
  - destruct (Hnone (handleWheel data key deltaY s) [] false) as (? & ? & ?);
      [constructor | done].
  - destruct (wheelingTimer s).
    + destruct (Hsettled s) as [Hkeep Hcalls].
      split; [done |]. split; [done | exact Hcalls].
    + destruct (Hnone s [] false) as (? & ? & ?); [constructor | done].
Qed.

(** X14.  Without a touch end and without the wheel timer firing nothing is
    committed: whatever touch starts, moves, cancels and wheel events
    arrive, [onChange] is not called and the heap stays as it is. *)
Theorem no_commit_without_settling data key (es : list Event)
  (s : ColumnState) (σ : heap) :
  Forall (λ e, settles e = false) es →
  Forall is_focus (calls (run data key es s σ)) ∧
  store (run data key es s σ) = σ.
Proof.
  intros Hes. revert s σ.
  induction Hes as [| e es He Hes IH]; intros s σ;
    cbn [run state store calls threw]; [by split; [constructor |] |].
  destruct (dispatch_commits data key e s σ) as (_ & Hquiet & _).
  destruct (Hquiet He) as [Hstore Hfocus].
  destruct (IH (state (dispatch data key e s σ)) (store (dispatch data key e s σ)))
    as [IHfocus IHstore].
  split; [by apply Forall_app | by rewrite IHstore].
Qed.

Lemma no_commit_without_settling_witness :
  store (run (default_picker ["a"; "b"]) "c"
           [TouchStart 10; TouchMove 20; Wheel 5; TouchCancel]
           (at_rest 90) (heap_with "a")) = heap_with "a".
Proof.
  apply no_commit_without_settling. by repeat constructor.
Defined.

Lemma run_keeps_objects data key (es : list Event)
  (s : ColumnState) (σ : heap) obj (fields : PickerValue) :
  σ !! obj = Some fields →
  store (run data key es s σ) !! obj = Some fields.
Proof.
  revert s σ. induction es as [| e es IH]; intros s σ Hobj;
    cbn [run state store calls threw]; [done |].
  apply IH. by apply dispatch_commits.
Qed.

(** X15.  The column never writes into an object: an object of the heap has
    the fields it had, whatever events have been handled since. *)
Theorem trace_keeps_every_object data key (es : list Event)
  (s : ColumnState) (σ : heap) obj (fields : PickerValue) :
  σ !! obj = Some fields →
  store (run data key es s σ) !! obj = Some fields.
Proof.
  revert s σ. induction es as [| e es IH]; intros s σ Hobj;
    cbn [run state store calls threw]; [done |].
  destruct (dispatch_commits data key e s σ) as (Hkeep & _ & _).
  apply IH, Hkeep, Hobj.
Qed.

Lemma trace_keeps_every_object_witness :
  store (run (default_picker ["a"; "b"]) "c"
           [TouchStart 10; TouchMove (-30); TouchEnd]
           (at_rest 90) (heap_with "a")) !! 1%positive
  = Some ({[ "c" := "a" ]} : PickerValue).
Proof.
  apply trace_keeps_every_object. unfold heap_with.
  by rewrite lookup_singleton_eq.
Defined.

(** X16.  Every call of [onChange] that a column makes names the column's own
    key and passes an object that holds, for that key, the value of one
    of the column's options and, for every other key, what the owner's
    value object holds. *)
Theorem commits_stay_within_the_column data key (es : list Event)
  (s : ColumnState) (σ : heap) next k :
  is_Some (σ !! groupValue data) →
  OnChange next k ∈ calls (run data key es s σ) →
  k = key ∧
  (∃ o, o ∈ options data key ∧
        read (store (run data key es s σ)) next key = Some (Picker.value o)) ∧
  ∀ k', k' ≠ key →
        read (store (run data key es s σ)) next k'
        = read σ (groupValue data) k'.
Proof.
  revert s σ. induction es as [| e es IH]; intros s σ Hvalue Hcall;
    cbn [run state store calls threw] in *.
  { by apply elem_of_nil in Hcall. }
  destruct (dispatch_commits data key e s σ) as (Hkeep & _ & Hfirst).
  set (first := dispatch data key e s σ) in *.
  assert (Hlater : ∀ obj fields,
    store first !! obj = Some fields →
    store (run data key es (state first) (store first)) !! obj = Some fields).
  { intros obj fields. apply run_keeps_objects. }
  apply elem_of_app in Hcall as [Hcall | Hcall].
  - destruct (Hfirst next k Hcall) as (-> & (o & Ho & Hread) & Hother & Hsome).
    split; [done |]. split.
    + exists o. split; [done |].
      rewrite (read_preserved (store first));
        [done | done | intros f; apply Hlater].
    + intros k' Hk'.
      rewrite (read_preserved (store first));
        [by apply Hother | done | intros f; apply Hlater].
  - destruct Hvalue as [fields Hfields].
    destruct (IH (state first) (store first)) as (-> & Hoption & Hother);
      [by exists fields; apply Hkeep | done |].
    split; [done |]. split; [done |].
    intros k' Hk'. rewrite Hother by done.
    apply read_preserved; [by exists fields | intros f; apply Hkeep].
Qed.

Lemma commits_stay_within_the_column_witness :
  ∃ o, o ∈ options (default_picker ["a"; "b"]) "c" ∧
       read (store (run (default_picker ["a"; "b"]) "c" [TouchEnd]
                      (dragging 54 90) (heap_with "a")))
         (spread_with (heap_with "a") 1%positive "c" "b").1 "c"
       = Some (Picker.value o).
Proof.
  assert (Ho :
    array_get (options (default_picker ["a"; "b"]) "c")
      (nextActiveIndex (default_picker ["a"; "b"]) "c" 54)
    = Some (mkOption "b" 2)).
  { rewrite nextActiveIndex_bottom by (fixture; lra).
    unfold default_picker. by rewrite fixture_options. }
  apply (commits_stay_within_the_column (default_picker ["a"; "b"]) "c"
           [TouchEnd] (dragging 54 90) (heap_with "a") _ "c").
  - by eexists.
  - cbn [run dispatch state store calls threw]. unfold handleTouchEnd.
    cbn [isMoving dragging].
    rewrite (GestureFacts.settled_with_option _ _ _ _ (mkOption "b" 2))
      by exact Ho.
    cbn [calls groupValue default_picker picker Picker.value].
    rewrite StoreFacts.triggerChange_changed by (by vm_compute).
    rewrite app_nil_r. apply list_elem_of_here.
Defined.

End TraceFacts.

(** ** Settling *)

Module SettleFacts.

Import JS PickerRoot Picker PickerColumn Events Fixtures IndexFacts
  GeometryFacts GestureFacts.

Lemma updating_does_not_throw data key (s : ColumnState) (σ : heap) :
  (1 <= length (options data key))%nat →
  0 < itemHeight data → 0 <= selectedItemHeight data →
  threw (handleScrollerTranslateUpdating data key s σ) = false.
Proof.
  intros Hn Hih Hsel. unfold handleScrollerTranslateUpdating.
  destruct (resolved_option_exists data key (scrollerTranslate s) Hn Hih Hsel)
    as [o ->]. done.
Qed.

Lemma settled_does_not_throw data key (s : ColumnState) (σ : heap) :
  (1 <= length (options data key))%nat →
  0 < itemHeight data → 0 <= selectedItemHeight data →
  threw (handleScrollerTranslateSettled data key s σ) = false.
Proof.
  intros Hn Hih Hsel. unfold handleScrollerTranslateSettled.
  destruct (resolved_option_exists data key (scrollerTranslate s) Hn Hih Hsel)
    as [o ->]. done.
Qed.

(** X17.  A column with at least one option, a positive item height and a
    highlight height that is not negative never throws, whatever events
    arrive and wherever the scroller is. *)
Theorem column_with_options_never_throws data key (es : list Event)
  (s : ColumnState) (σ : heap) :
  (1 <= length (options data key))%nat →
  0 < itemHeight data → 0 <= selectedItemHeight data →
  threw (run data key es s σ) = false.
Proof.
  intros Hn Hih Hsel. revert s σ.
  induction es as [| e es IH]; intros s σ;
    cbn [run state store calls threw]; [done |].
  rewrite IH, orb_false_r.
  destruct e; cbn [dispatch threw]; try done.
  - unfold handleTouchMove. cbn [threw]. by apply updating_does_not_throw.
  - unfold handleTouchEnd. destruct (isMoving s); [| done].
    by apply settled_does_not_throw.
  - destruct (wheelingTimer s); [| done].
    by apply settled_does_not_throw.
Qed.

Lemma column_with_options_never_throws_witness :
  threw (run (default_picker ["a"; "b"]) "c"
           [TouchStart 10; TouchMove 500; TouchEnd; Wheel 3; WheelTimeout]
           (at_rest 90) (heap_with "a")) = false.
Proof.
  apply column_with_options_never_throws.
  - unfold default_picker. rewrite fixture_options. simpl. lia.
  - fixture. lra.
  - fixture. lra.
Defined.

Lemma array_get_in_range {A : Type} (xs : list A) (i : Z) (x : A) :
  array_get xs i = Some x → (0 <= i < Z.of_nat (length xs))%Z.
Proof.
  unfold array_get. destruct (Z.ltb_spec i 0); [done |].
  intros Hlookup. apply lookup_lt_Some in Hlookup. lia.
Qed.

(** X18.  A settle that commits nothing leaves the scroller on a settle
    offset, and that is a resting place: with a positive item height
    and a highlight lower than three items, settling once more from
    there changes nothing and calls nothing. *)
Theorem snap_is_stable data key (s : ColumnState) (σ : heap) :
  0 < itemHeight data →
  selectedItemHeight data < 3 * itemHeight data →
  let out := handleScrollerTranslateSettled data key s σ in
  threw out = false → calls out = [] →
  scrollerTranslate (state out)
  = settleTranslate data (nextActiveIndex data key (scrollerTranslate s)) ∧
  handleScrollerTranslateSettled data key (state out) (store out) = out.
Proof.
  intros Hih Hsel out Hthrew Hcalls. subst out.
  unfold handleScrollerTranslateSettled in *.
  set (index := nextActiveIndex data key (scrollerTranslate s)) in *.
  destruct (array_get (options data key) index) as [o |] eqn:Ho;
    [| discriminate].
  cbn [state store calls threw] in *.
  unfold triggerChange in *.
  destruct (decide (read σ (groupValue data) key = Some (Picker.value o)))
    as [Hsame | Hdiff]; [| discriminate].
  cbn [committed heap_after onChange_calls state] in *.
  split; [done |].
  assert (Hback :
    nextActiveIndex data key
      (scrollerTranslate (setScrollerTranslate (settleTranslate data index) s))
    = index).
  { cbn [scrollerTranslate setScrollerTranslate].
    apply settle_resolves_to_itself; [done | done |].
    by eapply array_get_in_range. }
  rewrite !Hback, Ho. cbn [state store calls threw].
  by rewrite decide_True by done.
Qed.

Lemma snap_is_stable_witness :
  handleScrollerTranslateSettled (default_picker ["a"; "b"]) "c"
    (state (handleScrollerTranslateSettled (default_picker ["a"; "b"]) "c"
              (at_rest 80) (heap_with "a")))
    (store (handleScrollerTranslateSettled (default_picker ["a"; "b"]) "c"
              (at_rest 80) (heap_with "a")))
  = handleScrollerTranslateSettled (default_picker ["a"; "b"]) "c"
      (at_rest 80) (heap_with "a").
Proof.
  assert (Hindex : nextActiveIndex (default_picker ["a"; "b"]) "c" 80 = 0%Z).
  { rewrite nextActiveIndex_between by (fixture; lra).
    fixture. rewrite (RoundFacts.Math_round_unique _ 0); [done |]. simpl. lra. }
  assert (Hout :
    handleScrollerTranslateSettled (default_picker ["a"; "b"]) "c"
      (at_rest 80) (heap_with "a")
    = mkOutcome
        (setScrollerTranslate
           (settleTranslate (default_picker ["a"; "b"]) 0) (at_rest 80))
        (heap_with "a") [] false).
  { rewrite (settled_with_option _ _ _ _ (mkOption "a" 1)).
    - cbn [scrollerTranslate at_rest]. rewrite Hindex.
      cbn [groupValue default_picker picker Picker.value].
      by rewrite StoreFacts.triggerChange_unchanged by (by vm_compute).
    - cbn [scrollerTranslate at_rest]. rewrite Hindex.
      unfold default_picker. by rewrite fixture_options. }
  apply (snap_is_stable (default_picker ["a"; "b"]) "c" (at_rest 80)
           (heap_with "a")).
  - fixture. lra.
  - fixture. lra.
  - by rewrite Hout.
  - by rewrite Hout.
Defined.

(** X19.  When a settle commits and the owner passes the object of the call
    back as the value, the column selects the first option that has the
    committed value, which is the resolved one or an earlier one, and
    the resolved one if the values of the options are all different.
    The effect that follows the selected index runs only if that index
    is not the one of the render before: it then puts the scroller on
    height/2 - selectedItemHeight/2 - index*itemHeight - topOffset for
    the selected index, and otherwise the scroller stays where the
    gesture left it. *)
Theorem committed_value_fed_back_is_selected data key (s : ColumnState)
  (σ : heap) (o : Option) :
  let index := nextActiveIndex data key (scrollerTranslate s) in
  let out := handleScrollerTranslateSettled data key s σ in
  itemHeight data ≠ 0 →
  array_get (options data key) index = Some o →
  read σ (groupValue data) key ≠ Some (Picker.value o) →
  ∃ next,
    calls out = [OnChange next key] ∧
    let fed := with_value next data in
    let selected := selectedIndex fed key (store out) in
    let synced :=
      syncScrollerTranslate fed key (Some (effect_deps data key σ))
        (store out) (state out) in
    (0 <= selected <= index)%Z ∧
    (∃ first,
       array_get (options data key) selected = Some first ∧
       Picker.value first = Picker.value o) ∧
    (NoDup (map Picker.value (options data key)) → selected = index) ∧
    (selected ≠ selectedIndex data key σ →
     scrollerTranslate synced
     = height data / 2 - selectedItemHeight data / 2
       - IZR selected * itemHeight data - topOffset data) ∧
    (selected = selectedIndex data key σ →
     scrollerTranslate synced = scrollerTranslate s).
Proof.
  intros index out _ Ho Hdiff. subst out.
  rewrite (settled_with_option _ _ _ _ o) by exact Ho.
  rewrite StoreFacts.triggerChange_changed by done.
  cbn [state store calls committed heap_after onChange_calls map fst snd].
  set (next := (spread_with σ (groupValue data) key (Picker.value o)).1).
  set (σ' := (spread_with σ (groupValue data) key (Picker.value o)).2).
  exists next. split; [done |]. set (fed := with_value next data).
  assert (Hvalue : PickerColumn.value fed key σ' = Some (Picker.value o)).
  { apply ItemFacts.read_spread_same. }
  assert (Hoptions : options fed key = options data key) by done.
  destruct (ItemFacts.first_match
              (λ p, bool_decide (Some (Picker.value p)
                                 = PickerColumn.value fed key σ'))
              (options data key))
    as (before & first & after & Hsplit & Hfirst & Hbefore).
  { exists o. split; [by eapply TraceFacts.array_get_elem_of |].
    apply bool_decide_eq_true. by rewrite Hvalue. }
  apply bool_decide_eq_true in Hfirst. rewrite Hvalue in Hfirst.
  injection Hfirst as Hfirst.
  assert (Hselected : selectedIndex fed key σ' = Z.of_nat (length before)).
  { unfold selectedIndex, findIndex. rewrite Hoptions, Hsplit.
    rewrite SelectionFacts.findIndex_from_first; [| done |].
    - destruct (Z.ltb_spec (0 + Z.of_nat (length before)) 0); lia.
    - apply bool_decide_eq_true. by rewrite Hvalue, Hfirst. }
  pose proof (array_get_in_range _ _ _ Ho) as Hrange.
  assert (Hle : (Z.of_nat (length before) <= index)%Z).
  { destruct (Z.le_gt_cases (Z.of_nat (length before)) index) as [| Hgt];
      [done |].
    exfalso. unfold array_get in Ho.
    destruct (Z.ltb_spec index 0); [lia |].
    rewrite Hsplit, lookup_app_l in Ho by lia.
    apply list_elem_of_lookup_2, Hbefore in Ho.
    apply bool_decide_eq_false in Ho. by rewrite Hvalue in Ho. }
  assert (Hget : array_get (options data key) (Z.of_nat (length before))
                 = Some first).
  { rewrite Hsplit. apply ItemFacts.array_get_middle. }
  cbv zeta. unfold syncScrollerTranslate, effect_deps, settleTranslate.
  cbn [fed with_value height itemHeight selectedItemHeight topOffset].
  fold fed. rewrite Hselected.
  split; [lia |]. split; [by exists first |]. split; [| split].
  - intros Hnodup.
    unfold array_get in Ho, Hget.
    destruct (Z.ltb_spec index 0); [lia |].
    destruct (Z.ltb_spec (Z.of_nat (length before)) 0); [lia |].
    assert (Hnat : Z.to_nat (Z.of_nat (length before)) = Z.to_nat index).
    { apply (NoDup_lookup _ _ _ (Picker.value o) Hnodup);
        rewrite list_lookup_fmap.
      - by rewrite Hget, <- Hfirst.
      - by rewrite Ho. }
    lia.
  - intros Hmoved. rewrite decide_False; [done |].
    intros [= Hsame]. by apply Hmoved.
  - intros Hsame. rewrite decide_True; [done |]. by rewrite Hsame.
Qed.

Lemma committed_value_fed_back_is_selected_witness :
  (∃ next,
     calls (handleScrollerTranslateSettled (default_picker ["a"; "b"]) "c"
              (at_rest 60) (heap_with "a"))
     = [OnChange next "c"] ∧
     scrollerTranslate
       (syncScrollerTranslate
          (with_value next (default_picker ["a"; "b"])) "c"
          (Some (effect_deps (default_picker ["a"; "b"]) "c" (heap_with "a")))
          (store (handleScrollerTranslateSettled (default_picker ["a"; "b"])
                    "c" (at_rest 60) (heap_with "a")))
          (state (handleScrollerTranslateSettled (default_picker ["a"; "b"])
                    "c" (at_rest 60) (heap_with "a"))))
     = 216 / 2 - 36 / 2 - 1 * 36 - 0) ∧
  (∃ next,
     calls (handleScrollerTranslateSettled (default_picker ["a"; "b"]) "c"
              (at_rest 80) (heap_with "z"))
     = [OnChange next "c"] ∧
     scrollerTranslate
       (syncScrollerTranslate
          (with_value next (default_picker ["a"; "b"])) "c"
          (Some (effect_deps (default_picker ["a"; "b"]) "c" (heap_with "z")))
          (store (handleScrollerTranslateSettled (default_picker ["a"; "b"])
                    "c" (at_rest 80) (heap_with "z")))
          (state (handleScrollerTranslateSettled (default_picker ["a"; "b"])
                    "c" (at_rest 80) (heap_with "z"))))
     = 80).
Proof.
  assert (Hsixty : nextActiveIndex (default_picker ["a"; "b"]) "c" 60 = 1%Z).
  { rewrite nextActiveIndex_between by (fixture; lra).
    fixture. rewrite (RoundFacts.Math_round_unique _ (-1)); [done |].
    simpl. lra. }
  assert (Heighty : nextActiveIndex (default_picker ["a"; "b"]) "c" 80 = 0%Z).
  { rewrite nextActiveIndex_between by (fixture; lra).
    fixture. rewrite (RoundFacts.Math_round_unique _ 0); [done |]. simpl. lra. }
  assert (Hdistinct :
    NoDup (map Picker.value (options (default_picker ["a"; "b"]) "c"))).
  { unfold default_picker. rewrite fixture_options. simpl.
    apply NoDup_cons. split; [| apply NoDup_singleton].
    rewrite list_elem_of_singleton. discriminate. }
  split.
  - destruct (committed_value_fed_back_is_selected
                (default_picker ["a"; "b"]) "c" (at_rest 60) (heap_with "a")
                (mkOption "b" 2))
      as (next & Hcalls & _ & _ & Hresolved & Hmoved & _).
    + fixture. lra.
    + cbn [scrollerTranslate at_rest]. rewrite Hsixty.
      unfold default_picker. by rewrite fixture_options.
    + by vm_compute.
    + exists next. split; [exact Hcalls |].
      cbn [scrollerTranslate at_rest] in Hresolved, Hmoved.
      rewrite Hsixty in Hresolved.
      specialize (Hresolved Hdistinct).
      rewrite Hmoved by (rewrite Hresolved; by vm_compute).
      rewrite Hresolved. fixture. lra.
  - destruct (committed_value_fed_back_is_selected
                (default_picker ["a"; "b"]) "c" (at_rest 80) (heap_with "z")
                (mkOption "a" 1))
      as (next & Hcalls & _ & _ & Hresolved & _ & Hkept).
    + fixture. lra.
    + cbn [scrollerTranslate at_rest]. rewrite Heighty.
      unfold default_picker. by rewrite fixture_options.
    + by vm_compute.
    + exists next. split; [exact Hcalls |].
      cbn [scrollerTranslate at_rest] in Hresolved, Hkept.
      rewrite Heighty in Hresolved.
      specialize (Hresolved Hdistinct).
      apply Hkept. rewrite Hresolved. by vm_compute.
Defined.

End SettleFacts.

(** ** Drags and the wheel, from the first event to the last *)

Module DragFacts.

Import JS PickerRoot Picker PickerColumn Events Fixtures IndexFacts
  GeometryFacts GestureFacts BandFacts.

Lemma moves_keep_start data key (pageYs : list R) (s : ColumnState)
  (σ : heap) :
  let out := run data key (map TouchMove pageYs) s σ in
  startScrollerTranslate (state out) = startScrollerTranslate s ∧
  startTouchY (state out) = startTouchY s ∧
  store out = σ.
Proof.
  revert s σ. induction pageYs as [| y ys IH]; intros s σ;
    cbn [map run dispatch state store calls threw]; [done |].
  destruct (IH (state (handleTouchMove data key y s σ))
               (store (handleTouchMove data key y s σ)))
    as (-> & -> & ->).
  unfold handleTouchMove. cbn [state store].
  unfold updateScrollerWhileMoving, setScrollerTranslate.
  cbn [startScrollerTranslate startTouchY]. by destruct (isMoving s).
Qed.

(** X20.  During a drag the offset depends on where the finger is and not on
    the way it came: after a touch start at [pageY0] and any moves that
    end at [pageY], the offset is the clamp of the offset at the start
    plus [pageY - pageY0], and it is that sum itself while the sum is
    within the bounds. *)
Theorem drag_offset_follows_the_finger data key (pageY0 pageY : R)
  (pageYs : list R) (s : ColumnState) (σ : heap) :
  let out :=
    run data key (TouchStart pageY0 :: map TouchMove (pageYs ++ [pageY])) s σ in
  let raw := scrollerTranslate s + pageY - pageY0 in
  scrollerTranslate (state out)
  = scrollerTranslate (updateScrollerWhileMoving data key raw s) ∧
  isMoving (state out) = true ∧
  (minTranslate data key <= raw <= maxTranslate data →
   scrollerTranslate (state out) = raw).
Proof.
  cbn [run dispatch state store calls threw].
  rewrite map_app, CancelFacts.run_app.
  cbn [map run dispatch state store calls threw].
  destruct (moves_keep_start data key pageYs (handleTouchStart pageY0 s) σ)
    as (Hstart & Htouch & Hstore).
  set (moved := run data key (map TouchMove pageYs) (handleTouchStart pageY0 s) σ)
    in *.
  assert (Hlast :
    scrollerTranslate (state (handleTouchMove data key pageY (state moved)
                                (store moved)))
    = scrollerTranslate
        (updateScrollerWhileMoving data key
           (scrollerTranslate s + pageY - pageY0) s)).
  { unfold handleTouchMove. cbn [state]. rewrite Hstart, Htouch.
    by destruct (isMoving (state moved)). }
  split; [exact Hlast |]. split.
  - unfold handleTouchMove. cbn [state].
    by destruct (isMoving (state moved)) eqn:Hmoving.
  - intros Hwithin. rewrite Hlast. by apply clamp_within.
Qed.

Lemma drag_offset_follows_the_finger_witness :
  scrollerTranslate
    (state (run (default_picker ["a"; "b"; "c"]) "c"
              (TouchStart 100 :: map TouchMove ([130; 60] ++ [80]))
              (at_rest 90) (heap_with "a")))
  = 90 + 80 - 100.
Proof.
  destruct (drag_offset_follows_the_finger (default_picker ["a"; "b"; "c"]) "c"
              100 80 [130; 60] (at_rest 90) (heap_with "a"))
    as (_ & _ & Hwithin).
  apply Hwithin. fixture. lra.
Defined.

Lemma touch_end_with_option data key (s : ColumnState) (σ : heap) (o : Option) :
  isMoving s = true →
  array_get (options data key)
    (nextActiveIndex data key (scrollerTranslate s)) = Some o →
  handleTouchEnd data key s σ
  = let changed := triggerChange σ (groupValue data) key (Picker.value o) in
    let idle :=
      setStartScrollerTranslate 0 (setStartTouchY 0 (setIsMoving false s)) in
    mkOutcome
      (if committed changed then idle
       else setScrollerTranslate
              (settleTranslate data
                 (nextActiveIndex data key (scrollerTranslate s))) idle)
      (heap_after changed)
      (map (λ c, OnChange c.1 c.2) (onChange_calls changed))
      false.
Proof.
  intros Hmoving Ho. unfold handleTouchEnd. rewrite Hmoving.
  by rewrite (settled_with_option _ _ _ _ o) by exact Ho.
Qed.

(** X21.  Dragging from the settle offset of one option by whole item heights
    and letting go commits the option that many places away.  The
    highlight is not higher than an item here, so that the offsets of
    all options are within the bounds.  The focus published by the move
    is still that of the option the drag started from. *)
Theorem drag_by_items_commits_that_option data key (i j : Z) (pageY0 : R)
  (s : ColumnState) (σ : heap) (from to : Option) :
  0 < itemHeight data →
  selectedItemHeight data <= itemHeight data →
  scrollerTranslate s = settleTranslate data i →
  array_get (options data key) i = Some from →
  array_get (options data key) j = Some to →
  let pageY := pageY0 - IZR (j - i) * itemHeight data in
  let out := run data key [TouchStart pageY0; TouchMove pageY; TouchEnd] s σ in
  let changed := triggerChange σ (groupValue data) key (Picker.value to) in
  threw out = false ∧
  calls out
  = FocusChange key (Picker.value from)
    :: map (λ c, OnChange c.1 c.2) (onChange_calls changed) ∧
  store out = heap_after changed ∧
  isMoving (state out) = false ∧
  (committed changed = false →
   scrollerTranslate (state out) = settleTranslate data j).
Proof.
  intros Hih Hsel Hrest Hfrom Hto pageY out changed.
  pose proof (SettleFacts.array_get_in_range _ _ _ Hfrom) as Hi.
  pose proof (SettleFacts.array_get_in_range _ _ _ Hto) as Hj.
  assert (Hresolve : ∀ k, (0 <= k < Z.of_nat (length (options data key)))%Z →
                          nextActiveIndex data key (settleTranslate data k) = k).
  { intros k Hk. apply settle_resolves_to_itself; [done | lra | done]. }
  assert (Hraw : scrollerTranslate s + pageY - pageY0 = settleTranslate data j).
  { subst pageY. rewrite Hrest, !settleTranslate_step, minus_IZR. lra. }
  assert (Hwithin :
    minTranslate data key <= settleTranslate data j <= maxTranslate data).
  { rewrite minTranslate_settle_last, !settleTranslate_step.
    assert (0 <= IZR j) by (apply IZR_le; lia).
    assert (IZR j <= IZR (Z.of_nat (length (options data key)) - 1))
      by (apply IZR_le; lia).
    split; nra. }
  subst out. cbn [run dispatch state store calls threw].
  set (started := handleTouchStart pageY0 s).
  assert (Hmove :
    handleTouchMove data key pageY started σ
    = mkOutcome
        (setScrollerTranslate (settleTranslate data j)
           (if isMoving started then started else setIsMoving true started))
        σ [FocusChange key (Picker.value from)] false).
  { unfold handleTouchMove, handleScrollerTranslateUpdating.
    subst started. cbn [handleTouchStart scrollerTranslate
      startScrollerTranslate startTouchY setStartScrollerTranslate
      setStartTouchY].
    rewrite Hraw, Hrest, Hresolve, Hfrom by done. cbn [calls threw focusChange].
    f_equal. unfold updateScrollerWhileMoving.
    destruct (Rlt_dec _ _); [lra |]. destruct (Rgt_dec _ _); [lra | done]. }
  rewrite Hmove. cbn [state store calls threw].
  set (moved :=
    setScrollerTranslate (settleTranslate data j)
      (if isMoving started then started else setIsMoving true started)).
  assert (Hmoving : isMoving moved = true).
  { subst moved. by destruct (isMoving started) eqn:Hm. }
  assert (Hindex :
    nextActiveIndex data key (scrollerTranslate moved) = j).
  { subst moved. cbn [scrollerTranslate setScrollerTranslate].
    by apply Hresolve. }
  rewrite (touch_end_with_option data key moved σ to Hmoving)
    by (by rewrite Hindex).
  rewrite Hindex. fold changed.
  cbn [state store calls threw]. rewrite app_nil_r.
  split; [done |]. split; [done |]. split; [done |].
  destruct (committed changed); split; done.
Qed.

Lemma drag_by_items_commits_that_option_witness :
  store (run (default_picker ["a"; "b"; "c"; "d"; "e"]) "c"
           [TouchStart 200; TouchMove (200 - IZR (4 - 2) * 36); TouchEnd]
           (at_rest 18) (heap_with "c"))
  = heap_after (triggerChange (heap_with "c") 1%positive "c" "e").
Proof.
  apply (drag_by_items_commits_that_option
           (default_picker ["a"; "b"; "c"; "d"; "e"]) "c" 2 4 200
           (at_rest 18) (heap_with "c") (mkOption "c" 3) (mkOption "e" 5)).
  - fixture. lra.
  - fixture. lra.
  - fixture. lra.
  - unfold default_picker. by rewrite fixture_options.
  - unfold default_picker. by rewrite fixture_options.
Defined.

End DragFacts.

(** ** The wheel *)

Module WheelFacts.

Import JS PickerRoot Picker PickerColumn Events Fixtures RootFixtures
  IndexFacts GeometryFacts GestureFacts BandFacts.

(** X22.  With the wheel mode off, which is the default, wheel events and the
    timer do nothing at all: the state and the heap stay as they are and
    nothing is called. *)
Theorem wheel_is_ignored_when_off data key (es : list Event)
  (s : ColumnState) (σ : heap) :
  wheelMode data = off →
  wheelingTimer s = false →
  Forall (λ e, is_wheel e = true) es →
  run data key es s σ = mkOutcome s σ [] false.
Proof.
  intros Hoff Htimer Hes.
  induction Hes as [| e es He Hes IH];
    cbn [run state store calls threw]; [done |].
  assert (Hfirst : dispatch data key e s σ = mkOutcome s σ [] false).
  { destruct e; try discriminate; cbn [dispatch].
    - unfold handleWheel. by rewrite decide_True.
    - by rewrite Htimer. }
  rewrite Hfirst. cbn [state store calls threw]. by rewrite IH.
Qed.

Lemma wheel_is_ignored_when_off_witness :
  run (pickerData bare_props ∅) "c" [Wheel 120; WheelTimeout; Wheel (-40)]
    (at_rest 90) (heap_with "a")
  = mkOutcome (at_rest 90) (heap_with "a") [] false.
Proof.
  apply wheel_is_ignored_when_off; [done | done |].
  by repeat constructor.
Defined.



(** X24.  Wheel events and the wheel timer leave the touch state alone in
    every mode: in particular the column is not marked as moving, so
    the scroller keeps its transition of 300 ms while the wheel turns. *)
Theorem wheeling_keeps_the_transition data key (es : list Event)
  (s : ColumnState) (σ : heap) :
  Forall (λ e, is_wheel e = true) es →
  isMoving (state (run data key es s σ)) = isMoving s ∧
  startTouchY (state (run data key es s σ)) = startTouchY s ∧
  startScrollerTranslate (state (run data key es s σ))
  = startScrollerTranslate s ∧
  transitionDuration (state (run data key es s σ)) = transitionDuration s.
Proof.
  intros Hes. unfold transitionDuration. revert s σ.
  induction Hes as [| e es He Hes IH]; intros s σ;
    cbn [run state store calls threw]; [done |].
  destruct (IH (state (dispatch data key e s σ)) (store (dispatch data key e s σ)))
    as (-> & -> & -> & _).
  assert (Hsettled : ∀ s',
    isMoving (state (handleScrollerTranslateSettled data key s' σ)) = isMoving s' ∧
    startTouchY (state (handleScrollerTranslateSettled data key s' σ))
    = startTouchY s' ∧
    startScrollerTranslate (state (handleScrollerTranslateSettled data key s' σ))
    = startScrollerTranslate s').
  { intros s'. unfold handleScrollerTranslateSettled.
    destruct (array_get _ _); [| done]. cbn [state].
    by destruct (committed _). }
  destruct e; try discriminate; cbn [dispatch state].
  - unfold handleWheel. destruct (decide _); [done |].
    unfold handleWheeling. destruct (Req_dec_T _ _); [done |]. done.
  - destruct (wheelingTimer s); [| done].
    unfold handleWheelEnd. destruct (Hsettled s) as (-> & -> & ->). done.
Qed.

Lemma wheeling_keeps_the_transition_witness :
  transitionDuration
    (state (run (wheel_picker natural ["a"; "b"; "c"]) "c"
              [Wheel 100; Wheel 30; WheelTimeout] (at_rest 90) (heap_with "a")))
  = 300%nat.
Proof.
  apply (wheeling_keeps_the_transition (wheel_picker natural ["a"; "b"; "c"])
           "c" [Wheel 100; Wheel 30; WheelTimeout] (at_rest 90) (heap_with "a")).
  by repeat constructor.
Defined.

End WheelFacts.
